(** * MPC.cpp: problem formulation of the model-predictive controller

    A shallow embedding of [src/MPC.cpp]: the compile-time tuning profiles,
    the layout of the flattened decision vector, the cost/constraint functor
    [FG_eval::operator()] and the controller entry point [MPC::Solve].

    Conventions.
    - A C++ [double] (and CppAD's [AD<double>]) is read as a real number:
      the development is about the formulas and the indices, not about
      rounding.
    - [CPPAD_TESTVECTOR(double)], [Eigen::VectorXd] and [std::vector<double>]
      are lists of reals.  Every indexed read and write is checked: an index
      past the end makes the whole computation [None].
    - [size_t] indices are natural numbers.  The source subtracts 1 and 2
      from [N]; every profile has [3 <= N], which [wf_params] records, so
      these subtractions never wrap.
    - The interior-point solver is an external collaborator: it is a
      parameter of [Solve]. *)

From Stdlib Require Import Reals Lra Lia ZArith String.
From stdpp Require Import base option list strings.

(** ** Checked vectors and loops *)

(** [typedef CPPAD_TESTVECTOR(double) Dvector]. *)
Abbreviation Dvector := (list R).

#[global] Instance R_inhabited : Inhabited R := populate 0%R.

(** [v[i]] on the right of an assignment. *)
Definition vget (v : Dvector) (i : nat) : option R := v !! i.

(** [v[i] = a]. *)
Definition vset (v : Dvector) (i : nat) (a : R) : option Dvector :=
  if decide (i < length v) then Some (<[i:=a]> v) else None.

(** [v[i] += a]. *)
Definition vadd (v : Dvector) (i : nat) (a : R) : option Dvector :=
  old ← vget v i; vset v i (old + a)%R.

(** [for (i = lo; i < lo + n; i++) body], threading the loop state. *)
Fixpoint for_loop {St : Type} (body : nat → St → option St)
    (lo n : nat) (s : St) : option St :=
  match n with
  | O => Some s
  | S n' => s' ← body lo s; for_loop body (S lo) n' s'
  end.

(** [for (i = lo; i < hi; i++) body]. *)
Definition for_range {St : Type} (lo hi : nat)
    (body : nat → St → option St) (s : St) : option St :=
  for_loop body lo (hi - lo) s.

(** [static_cast<int>(r)]: truncation towards zero. *)
Definition static_cast_int (r : R) : Z :=
  if Rlt_dec r 0 then (- Int_part (- r))%Z else Int_part r.

(** ** Tuning profiles (the [#if defined(...)] blocks) *)

Record Params := {
  N : nat;
  dt : R;
  ref_v : R;
  coeff_cte : R;
  coeff_epsi : R;
  coeff_v : R;
  coeff_derivative_delta : R;
  coeff_derivative_a : R;
  coeff_penalize_delta : R;
  coeff_penalize_a : R
}.

Definition MPC_PARAMS_72MPH : Params := {|
  N := 10; dt := 0.05; ref_v := 75;
  coeff_cte := 1; coeff_epsi := 1; coeff_v := 1;
  coeff_derivative_delta := 500; coeff_derivative_a := 1;
  coeff_penalize_delta := 200; coeff_penalize_a := 1 |}.

Definition MPC_PARAMS_88MPH : Params := {|
  N := 12; dt := 0.1; ref_v := 90;
  coeff_cte := 1; coeff_epsi := 1; coeff_v := 1;
  coeff_derivative_delta := 1; coeff_derivative_a := 1;
  coeff_penalize_delta := 5000; coeff_penalize_a := 1 |}.

(** The [#else] branch, taken when neither macro is defined. *)
Definition MPC_PARAMS_default : Params := {|
  N := 12; dt := 0.05; ref_v := 85;
  coeff_cte := 1; coeff_epsi := 1; coeff_v := 1;
  coeff_derivative_delta := 700; coeff_derivative_a := 1;
  coeff_penalize_delta := 200; coeff_penalize_a := 1 |}.

(** Line 8: [#define MPC_PARAMS_72MPH]; line 9 is commented out. *)
Definition compiled : Params := MPC_PARAMS_72MPH.

Definition ref_cte : R := 0.
Definition ref_epsi : R := 0.
Definition Lf : R := 2.67.

(** Line 25: [static_cast<int>(0.1 / dt + 0.5)], the latency being 100 ms.
    The value is an [int] that the source only uses as an offset added to a
    [size_t]; it is not negative when [0 < dt]. *)
Definition num_states_in_latency (P : Params) : nat :=
  Z.to_nat (static_cast_int (0.1 / dt P + 0.5)).

(** ** Layout of the flattened decision vector (lines 95-102) *)

Section Layout.
Variable P : Params.

Definition x_start : nat := 0.
Definition y_start : nat := x_start + N P.
Definition psi_start : nat := y_start + N P.
Definition v_start : nat := psi_start + N P.
Definition cte_start : nat := v_start + N P.
Definition epsi_start : nat := cte_start + N P.
Definition delta_start : nat := epsi_start + N P.
Definition a_start : nat := delta_start + N P - 1.

(** Lines 239 and 241 of [Solve]. *)
Definition n_vars : nat := N P * 6 + (N P - 1) * 2.
Definition n_constraints : nat := N P * 6.
End Layout.

(** What the profiles must satisfy for the index arithmetic of the source to
    mean what it says: no [size_t] subtraction wraps and each actuation
    block has the entry of index 1 that [Solve] returns, the latency count
    is that of a positive time step, and the first free actuation lies
    inside the actuation blocks. *)
Definition wf_params (P : Params) : Prop :=
  3 ≤ N P ∧ (0 < dt P)%R ∧ num_states_in_latency P < N P - 1.

(** ** The cost and constraint functor [FG_eval] (lines 106-201) *)

(** Modelled from the spec: [Utils::poly3_derivative] is declared outside
    [MPC.cpp]; section 4.2 gives it as [f'(x) = c1 + 2*c2*x + 3*c3*x^2]. *)
Definition poly3_derivative (coeffs : Dvector) (x : R) : option R :=
  c1 ← vget coeffs 1;
  c2 ← vget coeffs 2;
  c3 ← vget coeffs 3;
  Some (c1 + 2 * c2 * x + 3 * c3 * x ^ 2)%R.

Record FG_eval := { coeffs : Dvector }.

Section FG_eval_operator.
Variable P : Params.
Variable this : FG_eval.

(** Lines 122-126. *)
Definition cost_reference (vars : Dvector) (i : nat) (fg : Dvector)
    : option Dvector :=
  cte ← vget vars (cte_start P + i);
  fg ← vadd fg 0 (coeff_cte P * (cte - ref_cte) ^ 2)%R;
  epsi ← vget vars (epsi_start P + i);
  fg ← vadd fg 0 (coeff_epsi P * (epsi - ref_epsi) ^ 2)%R;
  v ← vget vars (v_start P + i);
  vadd fg 0 (coeff_v P * (v - ref_v P) ^ 2)%R.

(** Lines 129-132. *)
Definition cost_actuators (vars : Dvector) (i : nat) (fg : Dvector)
    : option Dvector :=
  delta ← vget vars (delta_start P + i);
  fg ← vadd fg 0 (coeff_penalize_delta P * delta ^ 2)%R;
  a ← vget vars (a_start P + i);
  vadd fg 0 (coeff_penalize_a P * a ^ 2)%R.

(** Lines 135-138. *)
Definition cost_gaps (vars : Dvector) (i : nat) (fg : Dvector)
    : option Dvector :=
  delta1 ← vget vars (delta_start P + i + 1);
  delta0 ← vget vars (delta_start P + i);
  fg ← vadd fg 0 (coeff_derivative_delta P * (delta1 - delta0) ^ 2)%R;
  a1 ← vget vars (a_start P + i + 1);
  a0 ← vget vars (a_start P + i);
  vadd fg 0 (coeff_derivative_a P * (a1 - a0) ^ 2)%R.

(** Lines 150-155. *)
Definition initial_constraints (vars fg : Dvector) : option Dvector :=
  x ← vget vars (x_start);
  fg ← vset fg (1 + x_start) x;
  y ← vget vars (y_start P);
  fg ← vset fg (1 + y_start P) y;
  psi ← vget vars (psi_start P);
  fg ← vset fg (1 + psi_start P) psi;
  v ← vget vars (v_start P);
  fg ← vset fg (1 + v_start P) v;
  cte ← vget vars (cte_start P);
  fg ← vset fg (1 + cte_start P) cte;
  epsi ← vget vars (epsi_start P);
  vset fg (1 + epsi_start P) epsi.

(** Lines 158-199: one pass of the loop over the transitions. *)
Definition model_constraints (vars : Dvector) (i : nat) (fg : Dvector)
    : option Dvector :=
  x1 ← vget vars (x_start + i + 1);
  y1 ← vget vars (y_start P + i + 1);
  psi1 ← vget vars (psi_start P + i + 1);
  v1 ← vget vars (v_start P + i + 1);
  cte1 ← vget vars (cte_start P + i + 1);
  epsi1 ← vget vars (epsi_start P + i + 1);
  x0 ← vget vars (x_start + i);
  y0 ← vget vars (y_start P + i);
  psi0 ← vget vars (psi_start P + i);
  v0 ← vget vars (v_start P + i);
  cte0 ← vget vars (cte_start P + i);
  epsi0 ← vget vars (epsi_start P + i);
  delta0 ← vget vars (delta_start P + i);
  a0 ← vget vars (a_start P + i);
  c0 ← vget (coeffs this) 0;
  c1 ← vget (coeffs this) 1;
  c2 ← vget (coeffs this) 2;
  c3 ← vget (coeffs this) 3;
  let f0 := (c0 + c1 * x0 + c2 * x0 ^ 2 + c3 * x0 ^ 3)%R in
  d ← poly3_derivative (coeffs this) x0;
  let psides0 := atan d in
  fg ← vset fg (2 + x_start + i)
         (x1 - (x0 + v0 * cos psi0 * dt P))%R;
  fg ← vset fg (2 + y_start P + i)
         (y1 - (y0 + v0 * sin psi0 * dt P))%R;
  fg ← vset fg (2 + psi_start P + i)
         (psi1 - (psi0 + v0 * delta0 / Lf * dt P))%R;
  fg ← vset fg (2 + v_start P + i)
         (v1 - (v0 + a0 * dt P))%R;
  fg ← vset fg (2 + cte_start P + i)
         (cte1 - ((f0 - y0) + (v0 * sin epsi0 * dt P)))%R;
  vset fg (2 + epsi_start P + i)
         (epsi1 - ((psi0 - psides0) + v0 * delta0 / Lf * dt P))%R.

(** [void operator()(ADvector& fg, const ADvector& vars)]: the vector
    [fg] is updated in place, here it is returned. *)
Definition FG_eval_operator (fg vars : Dvector) : option Dvector :=
  fg ← vset fg 0 0%R;
  fg ← for_range 0 (N P) (cost_reference vars) fg;
  fg ← for_range 0 (N P - 1) (cost_actuators vars) fg;
  fg ← for_range 0 (N P - 2) (cost_gaps vars) fg;
  fg ← initial_constraints vars fg;
  for_range 0 (N P - 1) (model_constraints vars) fg.
End FG_eval_operator.

(** ** The controller class [MPC] (lines 207-380) *)

Record MPC := {
  steering_delta_ : R;
  a_ : R;
  pred_path_x_ : list R;
  pred_path_y_ : list R
}.

(** [CppAD::ipopt::solve_result<Dvector>], the fields [Solve] looks at. *)
Inductive status_type := success | not_success (kind : nat).

#[global] Instance status_type_eq_dec : EqDecision status_type.
Proof. solve_decision. Defined.

Record solve_result := {
  status : status_type;
  x : Dvector;
  obj_value : R
}.

(** The arguments of [CppAD::ipopt::solve], in the order of the call. *)
Record Problem := {
  pb_options : string;
  pb_vars : Dvector;
  pb_vars_lowerbound : Dvector;
  pb_vars_upperbound : Dvector;
  pb_constraints_lowerbound : Dvector;
  pb_constraints_upperbound : Dvector;
  pb_fg_eval : FG_eval
}.

(** The character written as a backslash followed by n in C++. *)
Definition newline : string := String (Ascii.ascii_of_nat 10) EmptyString.

(** What one call of [Solve] leaves behind: the updated object, the
    returned vector, and the cost written to [std::cout]. *)
Record Solve_outcome := {
  mpc_after : MPC;
  returned : list R;
  printed_cost : R
}.

Section MPC_class.
Variable P : Params.
(** [max_delta] comes from a header outside [MPC.cpp]. *)
Variable max_delta : R.
(** [Dvector v(n)] does not say what the [n] elements hold: entry [i] of
    a fresh vector is [uninitialized i]. *)
Variable uninitialized : nat → R.
(** [CppAD::ipopt::solve<Dvector, FG_eval>]. *)
Variable ipopt_solve : Problem → solve_result.

Definition Dvector_new (n : nat) : Dvector :=
  map uninitialized (seq 0 n).

(** Lines 207-213; [resize] fills with [0.0]. *)
Definition MPC_new : MPC := {|
  steering_delta_ := 0;
  a_ := 0;
  pred_path_x_ := replicate (N P - 1) 0%R;
  pred_path_y_ := replicate (N P - 1) 0%R |}.

(** Both bound vectors are written at the same index in each loop. *)
Definition set_bounds (lower upper : R) (i : nat)
    (b : Dvector * Dvector) : option (Dvector * Dvector) :=
  lo ← vset b.1 i lower;
  up ← vset b.2 i upper;
  Some (lo, up).

(** Lines 326-336. *)
Definition options : string :=
  ("Integer print_level  0" +:+ newline
   +:+ "Sparse  true        forward" +:+ newline
   +:+ "Sparse  true        reverse" +:+ newline
   +:+ "Numeric max_cpu_time          0.05" +:+ newline)%string.

(** Lines 218-336: everything [Solve] does before it calls the solver. *)
Definition Solve_problem (this : MPC) (state coeffs : Dvector)
    : option Problem :=
  let x0 := state in
  x ← vget x0 0;
  y ← vget x0 1;
  psi ← vget x0 2;
  v ← vget x0 3;
  cte ← vget x0 4;
  epsi ← vget x0 5;
  let vars := Dvector_new (n_vars P) in
  vars ← for_range 0 (n_vars P) (λ i vars, vset vars i 0%R) vars;
  vars ← vset vars x_start x;
  vars ← vset vars (y_start P) y;
  vars ← vset vars (psi_start P) psi;
  vars ← vset vars (v_start P) v;
  vars ← vset vars (cte_start P) cte;
  vars ← vset vars (epsi_start P) epsi;
  let bounds := (Dvector_new (n_vars P), Dvector_new (n_vars P)) in
  bounds ← for_range 0 (delta_start P)
             (set_bounds (-1.0e19) 1.0e19) bounds;
  bounds ← for_range (delta_start P) (a_start P)
             (set_bounds (- max_delta) max_delta) bounds;
  bounds ← for_range (delta_start P)
             (delta_start P + num_states_in_latency P)
             (set_bounds (steering_delta_ this) (steering_delta_ this))
             bounds;
  bounds ← for_range (a_start P) (n_vars P)
             (set_bounds (-1.0) 1.0) bounds;
  bounds ← for_range (a_start P) (a_start P + num_states_in_latency P)
             (set_bounds (a_ this) (a_ this)) bounds;
  let cbounds :=
    (Dvector_new (n_constraints P), Dvector_new (n_constraints P)) in
  cbounds ← for_range 0 (n_constraints P) (set_bounds 0 0) cbounds;
  clo ← vset cbounds.1 x_start x;
  clo ← vset clo (y_start P) y;
  clo ← vset clo (psi_start P) psi;
  clo ← vset clo (v_start P) v;
  clo ← vset clo (cte_start P) cte;
  clo ← vset clo (epsi_start P) epsi;
  cup ← vset cbounds.2 x_start x;
  cup ← vset cup (y_start P) y;
  cup ← vset cup (psi_start P) psi;
  cup ← vset cup (v_start P) v;
  cup ← vset cup (cte_start P) cte;
  cup ← vset cup (epsi_start P) epsi;
  let fg_eval := {| coeffs := coeffs |} in
  Some {| pb_options := options;
          pb_vars := vars;
          pb_vars_lowerbound := bounds.1;
          pb_vars_upperbound := bounds.2;
          pb_constraints_lowerbound := clo;
          pb_constraints_upperbound := cup;
          pb_fg_eval := fg_eval |}.

(** Lines 371-374. *)
Definition copy_pred_path (solution : solve_result) (i : nat)
    (path : list R * list R) : option (list R * list R) :=
  sx ← vget (x solution) (x_start + i);
  px ← vset path.1 (i - 1) sx;
  sy ← vget (x solution) (y_start P + i);
  py ← vset path.2 (i - 1) sy;
  Some (px, py).

(** Lines 349-379: what [Solve] does with the solver's answer. *)
Definition Solve_extract (this : MPC) (solution : solve_result)
    : option Solve_outcome :=
  let ok := true in
  let ok := ok && bool_decide (status solution = success) in
  let cost := obj_value solution in
  steering_delta ← vget (x solution)
                     (delta_start P + num_states_in_latency P);
  a ← vget (x solution) (a_start P + num_states_in_latency P);
  path ← for_range 1 (N P) (copy_pred_path solution)
           (pred_path_x_ this, pred_path_y_ this);
  r0 ← vget (x solution) (x_start + 1);
  r1 ← vget (x solution) (y_start P + 1);
  r2 ← vget (x solution) (psi_start P + 1);
  r3 ← vget (x solution) (v_start P + 1);
  r4 ← vget (x solution) (cte_start P + 1);
  r5 ← vget (x solution) (epsi_start P + 1);
  r6 ← vget (x solution) (delta_start P + 1);
  r7 ← vget (x solution) (a_start P + 1);
  Some {| mpc_after := {| steering_delta_ := steering_delta;
                          a_ := a;
                          pred_path_x_ := path.1;
                          pred_path_y_ := path.2 |};
          returned := [r0; r1; r2; r3; r4; r5; r6; r7];
          printed_cost := cost |}.

(** [vector<double> MPC::Solve(Eigen::VectorXd state,
    Eigen::VectorXd coeffs)]. *)
Definition Solve (this : MPC) (state coeffs : Dvector)
    : option Solve_outcome :=
  problem ← Solve_problem this state coeffs;
  Solve_extract this (ipopt_solve problem).
End MPC_class.

(** ** The formulation in the words of the design document

    The definitions below do not come from the code: they restate section
    4.2 of the design document over a decision vector, to be compared with
    what [FG_eval_operator] computes. *)

(** [sum_below f n] is [f 0 + ... + f (n-1)]. *)
Fixpoint sum_below (f : nat → R) (n : nat) : R :=
  match n with
  | O => 0
  | S k => sum_below f k + f k
  end.

Section Formulation.
Variable P : Params.
Variable vars : Dvector.

(** The eight blocks of the decision vector, read at time step [i]. *)
Definition x_at (i : nat) : R := vars !!! (x_start + i).
Definition y_at (i : nat) : R := vars !!! (y_start P + i).
Definition psi_at (i : nat) : R := vars !!! (psi_start P + i).
Definition v_at (i : nat) : R := vars !!! (v_start P + i).
Definition cte_at (i : nat) : R := vars !!! (cte_start P + i).
Definition epsi_at (i : nat) : R := vars !!! (epsi_start P + i).
Definition delta_at (i : nat) : R := vars !!! (delta_start P + i).
Definition a_at (i : nat) : R := vars !!! (a_start P + i).

Definition tracking_cost (i : nat) : R :=
  coeff_cte P * (cte_at i - 0) ^ 2
  + coeff_epsi P * (epsi_at i - 0) ^ 2
  + coeff_v P * (v_at i - ref_v P) ^ 2.

Definition magnitude_cost (i : nat) : R :=
  coeff_penalize_delta P * delta_at i ^ 2
  + coeff_penalize_a P * a_at i ^ 2.

Definition smoothness_cost (i : nat) : R :=
  coeff_derivative_delta P * (delta_at (i + 1) - delta_at i) ^ 2
  + coeff_derivative_a P * (a_at (i + 1) - a_at i) ^ 2.

Definition total_cost : R :=
  sum_below tracking_cost (N P)
  + sum_below magnitude_cost (N P - 1)
  + sum_below smoothness_cost (N P - 2).

Variable coeffs : Dvector.

(** The fitted path [f] and its slope [f']. *)
Definition path_f (x : R) : R :=
  coeffs !!! 0 + coeffs !!! 1 * x + coeffs !!! 2 * x ^ 2
  + coeffs !!! 3 * x ^ 3.

Definition path_f' (x : R) : R :=
  coeffs !!! 1 + 2 * coeffs !!! 2 * x + 3 * coeffs !!! 3 * x ^ 2.

Definition psides_at (i : nat) : R := atan (path_f' (x_at i)).

(** The six discretised equations: the state predicted for step [i + 1]
    from the state and the actuation of step [i]. *)
Definition predicted_x (i : nat) : R :=
  x_at i + v_at i * cos (psi_at i) * dt P.
Definition predicted_y (i : nat) : R :=
  y_at i + v_at i * sin (psi_at i) * dt P.
Definition predicted_psi (i : nat) : R :=
  psi_at i + (v_at i / Lf) * delta_at i * dt P.
Definition predicted_v (i : nat) : R :=
  v_at i + a_at i * dt P.
Definition predicted_cte (i : nat) : R :=
  (path_f (x_at i) - y_at i) + v_at i * sin (epsi_at i) * dt P.
Definition predicted_epsi (i : nat) : R :=
  (psi_at i - psides_at i) + (v_at i / Lf) * delta_at i * dt P.

Definition satisfies_model : Prop :=
  ∀ i, i < N P - 1 →
    x_at (i + 1) = predicted_x i ∧
    y_at (i + 1) = predicted_y i ∧
    psi_at (i + 1) = predicted_psi i ∧
    v_at (i + 1) = predicted_v i ∧
    cte_at (i + 1) = predicted_cte i ∧
    epsi_at (i + 1) = predicted_epsi i.
End Formulation.

(** What the constraint part of [fg] should hold, entry by entry. *)
Section Residuals.
Variable P : Params.
Variable coeffs vars fg : Dvector.

(** The six entries of transition [i]: actual minus predicted. *)
Definition residuals_at (i : nat) : Prop :=
  fg !! (2 + x_start + i)
    = Some (x_at vars (i + 1) - predicted_x P vars i)%R ∧
  fg !! (2 + y_start P + i)
    = Some (y_at P vars (i + 1) - predicted_y P vars i)%R ∧
  fg !! (2 + psi_start P + i)
    = Some (psi_at P vars (i + 1) - predicted_psi P vars i)%R ∧
  fg !! (2 + v_start P + i)
    = Some (v_at P vars (i + 1) - predicted_v P vars i)%R ∧
  fg !! (2 + cte_start P + i)
    = Some (cte_at P vars (i + 1) - predicted_cte P vars coeffs i)%R ∧
  fg !! (2 + epsi_start P + i)
    = Some (epsi_at P vars (i + 1) - predicted_epsi P vars coeffs i)%R.

(** The six entries of transition [i] are all zero. *)
Definition residuals_zero_at (i : nat) : Prop :=
  fg !! (2 + x_start + i) = Some 0%R ∧
  fg !! (2 + y_start P + i) = Some 0%R ∧
  fg !! (2 + psi_start P + i) = Some 0%R ∧
  fg !! (2 + v_start P + i) = Some 0%R ∧
  fg !! (2 + cte_start P + i) = Some 0%R ∧
  fg !! (2 + epsi_start P + i) = Some 0%R.

(** The six entries of time step 0 hold the bare variables. *)
Definition initial_entries : Prop :=
  fg !! (1 + x_start) = Some (x_at vars 0) ∧
  fg !! (1 + y_start P) = Some (y_at P vars 0) ∧
  fg !! (1 + psi_start P) = Some (psi_at P vars 0) ∧
  fg !! (1 + v_start P) = Some (v_at P vars 0) ∧
  fg !! (1 + cte_start P) = Some (cte_at P vars 0) ∧
  fg !! (1 + epsi_start P) = Some (epsi_at P vars 0).
End Residuals.

(** What [Solve] should hand to the solver (section 4.1). *)
Section Expected_problem.
Variable P : Params.
Variable max_delta : R.
Variable this : MPC.
Variable state : Dvector.

(** The entries at the six block starts are the state scalars. *)
Definition pinned_to_state (v : Dvector) : Prop :=
  v !! x_start = Some (state !!! 0) ∧
  v !! y_start P = Some (state !!! 1) ∧
  v !! psi_start P = Some (state !!! 2) ∧
  v !! v_start P = Some (state !!! 3) ∧
  v !! cte_start P = Some (state !!! 4) ∧
  v !! epsi_start P = Some (state !!! 5).

(** Every other entry below [n] is zero. *)
Definition zero_elsewhere (n : nat) (v : Dvector) : Prop :=
  ∀ j, j < n →
    j ≠ x_start → j ≠ y_start P → j ≠ psi_start P → j ≠ v_start P →
    j ≠ cte_start P → j ≠ epsi_start P →
    v !! j = Some 0%R.

(** A vector with the six block starts overwritten by the state. *)
Definition pin_state (v : Dvector) : Dvector :=
  <[epsi_start P:=state !!! 5]>
    (<[cte_start P:=state !!! 4]>
       (<[v_start P:=state !!! 3]>
          (<[psi_start P:=state !!! 2]>
             (<[y_start P:=state !!! 1]>
                (<[x_start:=state !!! 0]> v))))).

(** The pair (lower, upper) of variable bounds at index [j]. *)
Definition vars_bounds_at (j : nat) : R * R :=
  if decide (j < delta_start P) then (-1.0e19, 1.0e19)%R
  else if decide (j < delta_start P + num_states_in_latency P)
  then (steering_delta_ this, steering_delta_ this)
  else if decide (j < a_start P) then (- max_delta, max_delta)%R
  else if decide (j < a_start P + num_states_in_latency P)
  then (a_ this, a_ this)
  else (-1.0, 1.0)%R.
End Expected_problem.

(** The three profiles the source can be compiled with. *)
Definition is_profile (P : Params) : Prop :=
  P = MPC_PARAMS_72MPH ∨ P = MPC_PARAMS_88MPH ∨ P = MPC_PARAMS_default.

Definition weights_nonneg (P : Params) : Prop :=
  (0 <= coeff_cte P ∧ 0 <= coeff_epsi P ∧ 0 <= coeff_v P
   ∧ 0 <= coeff_penalize_delta P ∧ 0 <= coeff_penalize_a P
   ∧ 0 <= coeff_derivative_delta P ∧ 0 <= coeff_derivative_a P)%R.

(** [n] is [q] rounded to the nearest integer, halves going up. *)
Definition is_round (q : R) (n : nat) : Prop :=
  (INR n - 1 / 2 <= q < INR n + 1 / 2)%R.

(** The solver's answer with another status flag. *)
Definition with_status (st : status_type) (r : solve_result)
    : solve_result :=
  {| status := st; x := x r; obj_value := obj_value r |}.

(** What the constructor establishes and [Solve] relies on. *)
Definition MPC_invariant (P : Params) (this : MPC) : Prop :=
  length (pred_path_x_ this) = N P - 1
  ∧ length (pred_path_y_ this) = N P - 1.

(** The contract of the solver that [Solve] relies on: the solution has
    one entry per variable it was given. *)
Definition solver_contract (ipopt_solve : Problem → solve_result) : Prop :=
  ∀ pb, length (x (ipopt_solve pb)) = length (pb_vars pb).

(** ** Concrete inputs

    The scenario of section 8 of the design document (a straight road,
    the vehicle at the origin at 40 mph), and two stand-ins for the solver
    used to run [Solve] on it. *)

Definition scenario_state : Dvector := [0; 0; 0; 40; 0; 0]%R.
Definition straight_road : Dvector := [0; 0; 0; 0]%R.

(** What fresh vectors hold before [Solve] writes to them. *)
Definition stale (i : nat) : R := (IZR (Z.of_nat i) + 7)%R.

(** A solver that hands back its initial guess. *)
Definition echo_solver (pb : Problem) : solve_result :=
  {| status := success; x := pb_vars pb; obj_value := 0 |}.

(** A solver whose solution holds [i] at index [i], and that reports a
    failure. *)
Definition ramp_solver (pb : Problem) : solve_result :=
  {| status := not_success 1;
     x := map (λ i, IZR (Z.of_nat i)) (seq 0 (length (pb_vars pb)));
     obj_value := 0 |}.

(** A controller that has already issued a command. *)
Definition driving_MPC : MPC :=
  {| steering_delta_ := 0.1; a_ := 0.5;
     pred_path_x_ := replicate 9 0%R; pred_path_y_ := replicate 9 0%R |}.

(** A state whose six scalars differ. *)
Definition distinct_state : Dvector := [1; 2; 3; 4; 5; 6]%R.

(** Coefficient vectors of the wrong length. *)
Definition five_coeffs : Dvector := [1; 2; 3; 4; 5]%R.
Definition three_coeffs : Dvector := [1; 2; 3]%R.

(** ** Notions for the further properties *)

(** The decision vector starts at the supplied state. *)
Definition starts_at_state (P : Params) (state vars : Dvector) : Prop :=
  x_at vars 0 = state !!! 0 ∧
  y_at P vars 0 = state !!! 1 ∧
  psi_at P vars 0 = state !!! 2 ∧
  v_at P vars 0 = state !!! 3 ∧
  cte_at P vars 0 = state !!! 4 ∧
  epsi_at P vars 0 = state !!! 5.

(** The constraint outputs lie within the constraint bounds of the
    problem: output [j] is [fg[1 + j]], the cost being [fg[0]] (lines
    147-149). *)
Definition satisfies_constraints (P : Params) (pb : Problem)
    (fg : Dvector) : Prop :=
  ∀ j, j < n_constraints P →
    ∃ g lo up,
      fg !! (1 + j) = Some g
      ∧ pb_constraints_lowerbound pb !! j = Some lo
      ∧ pb_constraints_upperbound pb !! j = Some up
      ∧ (lo <= g <= up)%R.

Definition weights_pos (P : Params) : Prop :=
  (0 < coeff_cte P ∧ 0 < coeff_epsi P ∧ 0 < coeff_v P
   ∧ 0 < coeff_penalize_delta P ∧ 0 < coeff_penalize_a P
   ∧ 0 <= coeff_derivative_delta P ∧ 0 <= coeff_derivative_a P)%R.

(** The decision vector stays on the reference with idle actuators. *)
Definition on_reference (P : Params) (vars : Dvector) : Prop :=
  (∀ i, i < N P →
     cte_at P vars i = 0%R ∧ epsi_at P vars i = 0%R
     ∧ v_at P vars i = ref_v P)
  ∧ (∀ i, i < N P - 1 → delta_at P vars i = 0%R ∧ a_at P vars i = 0%R).

(** A vector lies within the variable bounds of the problem. *)
Definition within_bounds (P : Params) (pb : Problem) (xs : Dvector)
    : Prop :=
  ∀ j, j < n_vars P →
    ∃ v lo up,
      xs !! j = Some v
      ∧ pb_vars_lowerbound pb !! j = Some lo
      ∧ pb_vars_upperbound pb !! j = Some up
      ∧ (lo <= v <= up)%R.

(** A decision vector that cruises at the reference speed of the compiled
    profile. *)
Definition cruising : Dvector :=
  replicate 30 0%R ++ replicate 10 75%R ++ replicate 38 0%R.

(** A solver that answers with the lower variable bounds. *)
Definition lower_solver (pb : Problem) : solve_result :=
  {| status := success; x := pb_vars_lowerbound pb; obj_value := 0 |}.

(** * Verification *)

#[global] Arguments vget : simpl never.
#[global] Arguments vset : simpl never.
#[global] Arguments vadd : simpl never.
#[global] Arguments for_range : simpl never.

(** ** Checked vectors *)

Lemma vget_total (v : Dvector) (i : nat) :
  i < length v → vget v i = Some (v !!! i).
Proof. intros H. unfold vget. by apply list_lookup_lookup_total_lt. Qed.

Lemma vget_None (v : Dvector) (i : nat) :
  length v ≤ i → vget v i = None.
Proof. intros H. unfold vget. by apply lookup_ge_None_2. Qed.

Lemma vset_Some (v : Dvector) (i : nat) (a : R) :
  i < length v → vset v i a = Some (<[i:=a]> v).
Proof. intros H. unfold vset. by rewrite decide_True. Qed.

Lemma vset_None (v : Dvector) (i : nat) (a : R) :
  length v ≤ i → vset v i a = None.
Proof. intros H. unfold vset. rewrite decide_False; [done | lia]. Qed.

Lemma vadd_Some (v : Dvector) (i : nat) (a old : R) :
  v !! i = Some old → vadd v i a = Some (<[i:=(old + a)%R]> v).
Proof.
  intros H. unfold vadd, vget. rewrite H. simpl.
  apply vset_Some. by eapply lookup_lt_Some.
Qed.

(** ** Loops *)

Lemma for_loop_invariant {St : Type} (Inv : nat → St → Prop)
    (body : nat → St → option St) (n lo : nat) (s : St) :
  Inv lo s →
  (∀ i t, lo ≤ i < lo + n → Inv i t →
          ∃ t', body i t = Some t' ∧ Inv (S i) t') →
  ∃ s', for_loop body lo n s = Some s' ∧ Inv (lo + n) s'.
Proof.
  revert lo s. induction n as [|n IH]; intros lo s H0 Hstep; simpl.
  - exists s. by rewrite Nat.add_0_r.
  - destruct (Hstep lo s) as (t & -> & Ht); [lia | done |]. simpl.
    destruct (IH (S lo) t) as (s' & Hs' & HI); [done | |].
    + intros i u Hi. apply Hstep. lia.
    + exists s'. split; [done |]. by replace (lo + S n) with (S lo + n) by lia.
Qed.

Lemma for_range_invariant {St : Type} (Inv : nat → St → Prop)
    (body : nat → St → option St) (lo hi : nat) (s : St) :
  lo ≤ hi →
  Inv lo s →
  (∀ i t, lo ≤ i < hi → Inv i t →
          ∃ t', body i t = Some t' ∧ Inv (S i) t') →
  ∃ s', for_range lo hi body s = Some s' ∧ Inv hi s'.
Proof.
  intros Hle H0 Hstep. unfold for_range.
  destruct (for_loop_invariant Inv body (hi - lo) lo s) as (s' & ? & ?);
    [done | |].
  - intros i t Hi. apply Hstep. lia.
  - exists s'. split; [done |]. by replace hi with (lo + (hi - lo)) by lia.
Qed.

(** A loop whose body fails at its first pass fails. *)
Lemma for_range_first_None {St : Type} (body : nat → St → option St)
    (lo hi : nat) (s : St) :
  lo < hi → body lo s = None → for_range lo hi body s = None.
Proof.
  intros Hlt Hb. unfold for_range.
  destruct (hi - lo) as [|n] eqn:E; [lia |]. simpl. by rewrite Hb.
Qed.

(** ** The cost computed by [FG_eval_operator] *)

Ltac layout :=
  unfold n_vars, n_constraints, a_start, delta_start, epsi_start, cte_start,
    v_start, psi_start, y_start, x_start in *.

Ltac vec_simpl :=
  repeat first
    [ rewrite length_insert
    | rewrite list_lookup_insert_eq by (rewrite ?length_insert; layout; lia)
    | rewrite list_lookup_insert_ne by (layout; lia) ].

(** Run the statement at the head of a chain of binds. *)
Ltac run_bind := cbn [mbind option_bind]; cbv beta.

(** Run the statement at the head of a chain of binds. *)
Ltac run_read :=
  match goal with
  | |- context [vget ?v ?k ≫= _] =>
      rewrite (vget_total v k) by (layout; lia); run_bind
  end.

Ltac run_write :=
  match goal with
  | |- context [vset ?v ?k ?a] =>
      rewrite (vset_Some v k a) by (rewrite ?length_insert; layout; lia);
      run_bind
  end.

Ltac run_add :=
  match goal with
  | |- context [vadd ?v ?k ?a] =>
      erewrite (vadd_Some v k a) by (vec_simpl; eassumption || reflexivity);
      run_bind
  end.

(** A loop that adds [term i] to [fg[0]] at pass [i] adds their sum. *)
Lemma accumulate (body : nat → Dvector → option Dvector)
    (term : nat → R) (n : nat) (fg : Dvector) (acc : R) :
  (∀ i fg acc, i < n → fg !! 0 = Some acc →
     ∃ fg', body i fg = Some fg' ∧ length fg' = length fg
            ∧ fg' !! 0 = Some (acc + term i)%R) →
  fg !! 0 = Some acc →
  ∃ fg', for_range 0 n body fg = Some fg' ∧ length fg' = length fg
         ∧ fg' !! 0 = Some (acc + sum_below term n)%R.
Proof.
  intros Hbody Hacc.
  apply (for_range_invariant
           (λ i t, length t = length fg
                   ∧ t !! 0 = Some (acc + sum_below term i)%R)).
  - lia.
  - split; [done |]. simpl. rewrite Hacc. f_equal. lra.
  - intros i t Hi [Hlen Ht].
    destruct (Hbody i t _ ltac:(lia) Ht) as (t' & Ht' & Hlen' & Hacc').
    exists t'. split; [done |]. split; [congruence |].
    rewrite Hacc'. f_equal. simpl. lra.
Qed.

Section Cost.
Variable P : Params.
Variable vars : Dvector.
Hypothesis Hwf : wf_params P.
Hypothesis Hvars : n_vars P ≤ length vars.

Lemma cost_reference_step (i : nat) (fg : Dvector) (acc : R) :
  i < N P → fg !! 0 = Some acc →
  ∃ fg', cost_reference P vars i fg = Some fg'
         ∧ length fg' = length fg
         ∧ fg' !! 0 = Some (acc + tracking_cost P vars i)%R.
Proof.
  intros Hi Hacc. unfold cost_reference.
  assert (0 < length fg) by (by eapply lookup_lt_Some).
  run_read. run_add. run_read. run_add. run_read. run_add.
  eexists. split; [done |]. vec_simpl. split; [done |].
  f_equal. unfold tracking_cost, cte_at, epsi_at, v_at, ref_cte, ref_epsi.
  lra.
Qed.

Lemma cost_actuators_step (i : nat) (fg : Dvector) (acc : R) :
  i < N P - 1 → fg !! 0 = Some acc →
  ∃ fg', cost_actuators P vars i fg = Some fg'
         ∧ length fg' = length fg
         ∧ fg' !! 0 = Some (acc + magnitude_cost P vars i)%R.
Proof.
  intros Hi Hacc. unfold cost_actuators.
  assert (0 < length fg) by (by eapply lookup_lt_Some).
  run_read. run_add. run_read. run_add.
  eexists. split; [done |]. vec_simpl. split; [done |].
  f_equal. unfold magnitude_cost, delta_at, a_at. lra.
Qed.

Lemma cost_gaps_step (i : nat) (fg : Dvector) (acc : R) :
  i < N P - 2 → fg !! 0 = Some acc →
  ∃ fg', cost_gaps P vars i fg = Some fg'
         ∧ length fg' = length fg
         ∧ fg' !! 0 = Some (acc + smoothness_cost P vars i)%R.
Proof.
  intros Hi Hacc. unfold cost_gaps.
  assert (0 < length fg) by (by eapply lookup_lt_Some).
  run_read. run_read. run_add. run_read. run_read. run_add.
  eexists. split; [done |]. vec_simpl. split; [done |].
  f_equal. unfold smoothness_cost, delta_at, a_at.
  rewrite <- !Nat.add_assoc. lra.
Qed.
End Cost.

(** ** The constraints computed by [FG_eval_operator] *)

Lemma Lf_neq_0 : Lf ≠ 0%R.
Proof. unfold Lf. lra. Qed.

Section Constraints.
Variable P : Params.
Variable this : FG_eval.
Variable vars : Dvector.
Hypothesis Hwf : wf_params P.
Hypothesis Hvars : n_vars P ≤ length vars.
Hypothesis Hcoeffs : 4 ≤ length (coeffs this).

Lemma initial_constraints_spec (fg : Dvector) :
  1 + n_constraints P ≤ length fg →
  ∃ fg', initial_constraints P vars fg = Some fg'
         ∧ length fg' = length fg
         ∧ fg' !! 0 = fg !! 0
         ∧ initial_entries P vars fg'.
Proof.
  clear Hcoeffs. intros Hfg. destruct Hwf as (HN & _ & _).
  unfold initial_constraints.
  do 6 (run_read; run_write).
  eexists. split; [done |]. vec_simpl. split; [done |]. split; [done |].
  unfold initial_entries, x_at, y_at, psi_at, v_at, cte_at, epsi_at.
  rewrite !Nat.add_0_r. by vec_simpl.
Qed.

Lemma model_constraints_step (i : nat) (fg : Dvector) :
  1 + n_constraints P ≤ length fg →
  i < N P - 1 →
  ∃ fg', model_constraints P this vars i fg = Some fg'
         ∧ length fg' = length fg
         ∧ residuals_at P (coeffs this) vars fg' i
         ∧ ∀ j, j ≠ 2 + x_start + i → j ≠ 2 + y_start P + i →
                j ≠ 2 + psi_start P + i → j ≠ 2 + v_start P + i →
                j ≠ 2 + cte_start P + i → j ≠ 2 + epsi_start P + i →
                fg' !! j = fg !! j.
Proof.
  intros Hfg Hi. destruct Hwf as (HN & _ & _).
  unfold model_constraints, poly3_derivative.
  repeat run_read. repeat run_write.
  eexists. split; [done |]. vec_simpl. split; [done |]. split.
  - unfold residuals_at, predicted_x, predicted_y, predicted_psi,
      predicted_v, predicted_cte, predicted_epsi, psides_at, path_f,
      path_f', x_at, y_at, psi_at, v_at, cte_at, epsi_at, delta_at, a_at.
    rewrite <- !Nat.add_assoc. vec_simpl.
    pose proof Lf_neq_0.
    repeat split; f_equal; field; done.
  - intros j ? ? ? ? ? ?. by vec_simpl.
Qed.

(** A short coefficient vector stops any pass of the transition loop:
    [coeffs[0]] to [coeffs[3]] are read whatever the variables hold. *)
Lemma model_constraints_short_coeffs (i : nat) (fg : Dvector) :
  length (coeffs this) < 4 →
  i < N P - 1 →
  model_constraints P this vars i fg = None.
Proof.
  clear Hcoeffs. intros Hshort Hi. destruct Hwf as (HN & _ & _).
  unfold model_constraints, poly3_derivative.
  repeat run_read.
  destruct (decide (0 < length (coeffs this)));
    [| by rewrite (vget_None (coeffs this) 0) by lia].
  rewrite (vget_total (coeffs this) 0) by done. run_bind.
  destruct (decide (1 < length (coeffs this)));
    [| by rewrite (vget_None (coeffs this) 1) by lia].
  rewrite (vget_total (coeffs this) 1) by done. run_bind.
  destruct (decide (2 < length (coeffs this)));
    [| by rewrite (vget_None (coeffs this) 2) by lia].
  rewrite (vget_total (coeffs this) 2) by done. run_bind.
  by rewrite (vget_None (coeffs this) 3) by lia.
Qed.

(** Lines 119-155 always run to their end; what is left of [operator()]
    is the loop over the transitions. *)
Lemma FG_eval_operator_prefix (fg : Dvector) :
  1 + n_constraints P ≤ length fg →
  ∃ fg4, FG_eval_operator P this fg vars
           = for_range 0 (N P - 1) (model_constraints P this vars) fg4
         ∧ length fg4 = length fg
         ∧ fg4 !! 0 = Some (total_cost P vars)
         ∧ initial_entries P vars fg4.
Proof.
  clear Hcoeffs.
  intros Hfg. pose proof Hwf as (HN & _ & _). unfold FG_eval_operator.
  run_write.
  destruct (accumulate (cost_reference P vars) (tracking_cost P vars)
              (N P) (<[0:=0%R]> fg) 0%R)
    as (fg1 & -> & Hlen1 & Hacc1);
    [intros; by apply cost_reference_step | by vec_simpl |].
  run_bind. rewrite length_insert in Hlen1.
  destruct (accumulate (cost_actuators P vars) (magnitude_cost P vars)
              (N P - 1) fg1 _ (cost_actuators_step P vars Hvars) Hacc1)
    as (fg2 & -> & Hlen2 & Hacc2).
  run_bind.
  destruct (accumulate (cost_gaps P vars) (smoothness_cost P vars)
              (N P - 2) fg2 _ (cost_gaps_step P vars Hvars) Hacc2)
    as (fg3 & -> & Hlen3 & Hacc3).
  run_bind.
  destruct (initial_constraints_spec fg3)
    as (fg4 & -> & Hlen4 & Hacc4 & Hinit); [lia |].
  run_bind. exists fg4. split; [done |]. split; [lia |]. split; [| done].
  rewrite Hacc4, Hacc3. f_equal. unfold total_cost. lra.
Qed.

(** The whole of [operator()]: it returns, [fg[0]] is the cost of section
    4.2, the entries of time step 0 are the bare variables, and the
    entries of every transition are actual minus predicted. *)
Lemma FG_eval_operator_spec (fg : Dvector) :
  1 + n_constraints P ≤ length fg →
  ∃ fg', FG_eval_operator P this fg vars = Some fg'
         ∧ length fg' = length fg
         ∧ fg' !! 0 = Some (total_cost P vars)
         ∧ initial_entries P vars fg'
         ∧ ∀ i, i < N P - 1 → residuals_at P (coeffs this) vars fg' i.
Proof.
  intros Hfg. pose proof Hwf as (HN & _ & _).
  destruct (FG_eval_operator_prefix fg Hfg)
    as (fg4 & -> & Hlen4 & Hacc4 & Hinit).
  destruct (for_range_invariant
              (λ i t, length t = length fg
                      ∧ t !! 0 = Some (total_cost P vars)
                      ∧ initial_entries P vars t
                      ∧ ∀ j, j < i → residuals_at P (coeffs this) vars t j)
              (model_constraints P this vars) 0 (N P - 1) fg4)
    as (fg5 & -> & Hlen5 & Hacc5 & Hinit5 & Hres5).
  - lia.
  - split; [lia |]. split; [done |]. split; [done | intros; lia].
  - intros i t Hi (Hlen & Hacc & Hini & Hres).
    destruct (model_constraints_step i t)
      as (t' & -> & Hlen' & Hres' & Hframe); [lia | lia |].
    exists t'. split; [done |]. split; [lia |].
    split; [rewrite Hframe; [done | layout; lia ..] |].
    split.
    + destruct Hini as (? & ? & ? & ? & ? & ?).
      unfold initial_entries.
      repeat split; (rewrite Hframe; [done | layout; lia ..]).
    + intros j Hj. destruct (decide (j = i)) as [-> | Hne]; [done |].
      destruct (Hres j) as (? & ? & ? & ? & ? & ?); [lia |].
      unfold residuals_at.
      repeat split; (rewrite Hframe; [done | layout; lia ..]).
  - by exists fg5.
Qed.

Lemma FG_eval_operator_short_coeffs (fg : Dvector) :
  1 + n_constraints P ≤ length fg →
  length (coeffs this) < 4 →
  FG_eval_operator P this fg vars = None.
Proof.
  clear Hcoeffs. intros Hfg Hshort. pose proof Hwf as (HN & _ & _).
  destruct (FG_eval_operator_prefix fg Hfg) as (fg4 & -> & _).
  apply for_range_first_None; [lia |].
  apply model_constraints_short_coeffs; [done | lia].
Qed.
End Constraints.

(** ** The problem built by [Solve] *)

Lemma fill_range (a : R) (lo hi : nat) (v : Dvector) :
  lo ≤ hi → hi ≤ length v →
  ∃ v', for_range lo hi (λ i v, vset v i a) v = Some v'
        ∧ length v' = length v
        ∧ (∀ j, lo ≤ j < hi → v' !! j = Some a)
        ∧ (∀ j, ¬ (lo ≤ j < hi) → v' !! j = v !! j).
Proof.
  intros Hle Hlen.
  destruct (for_range_invariant
              (λ i t, length t = length v
                      ∧ (∀ j, lo ≤ j < i → t !! j = Some a)
                      ∧ (∀ j, ¬ (lo ≤ j < i) → t !! j = v !! j))
              (λ i v, vset v i a) lo hi v) as (v' & ? & ? & ? & ?);
    [done | | | by exists v'].
  - split; [done |]. split; [intros; lia | done].
  - intros i t Hi (Ht & Hin & Hout). rewrite vset_Some by lia.
    eexists. split; [done |]. rewrite length_insert. split; [done |]. split.
    + intros j Hj. destruct (decide (j = i)) as [-> |].
      * by rewrite list_lookup_insert_eq by lia.
      * rewrite list_lookup_insert_ne by done. apply Hin. lia.
    + intros j Hj. rewrite list_lookup_insert_ne by lia. apply Hout. lia.
Qed.

Lemma set_bounds_range (lower upper : R) (lo hi : nat)
    (b : Dvector * Dvector) :
  lo ≤ hi → hi ≤ length b.1 → hi ≤ length b.2 →
  ∃ b', for_range lo hi (set_bounds lower upper) b = Some b'
        ∧ length b'.1 = length b.1 ∧ length b'.2 = length b.2
        ∧ (∀ j, lo ≤ j < hi →
                b'.1 !! j = Some lower ∧ b'.2 !! j = Some upper)
        ∧ (∀ j, ¬ (lo ≤ j < hi) →
                b'.1 !! j = b.1 !! j ∧ b'.2 !! j = b.2 !! j).
Proof.
  intros Hle Hlen1 Hlen2.
  destruct (for_range_invariant
              (λ i t, length t.1 = length b.1 ∧ length t.2 = length b.2
                      ∧ (∀ j, lo ≤ j < i →
                              t.1 !! j = Some lower ∧ t.2 !! j = Some upper)
                      ∧ (∀ j, ¬ (lo ≤ j < i) →
                              t.1 !! j = b.1 !! j ∧ t.2 !! j = b.2 !! j))
              (set_bounds lower upper) lo hi b)
    as (b' & ? & ? & ? & ? & ?); [done | | | by exists b'].
  - split; [done |]. split; [done |]. split; [intros; lia | done].
  - intros i [t1 t2] Hi (Ht1 & Ht2 & Hin & Hout). simpl in *.
    unfold set_bounds. simpl. rewrite !vset_Some by lia. run_bind.
    eexists. split; [done |]. simpl. rewrite !length_insert.
    split; [done |]. split; [done |]. split.
    + intros j Hj. destruct (decide (j = i)) as [-> |].
      * by rewrite !list_lookup_insert_eq by lia.
      * rewrite !list_lookup_insert_ne by done. apply Hin. lia.
    + intros j Hj. rewrite !list_lookup_insert_ne by lia. apply Hout. lia.
Qed.

Section Problem.
Variable P : Params.
Variable max_delta : R.
Variable uninitialized : nat → R.
Variable this : MPC.
Variable state coeffs : Dvector.
Hypothesis Hwf : wf_params P.
Hypothesis Hstate : 6 ≤ length state.

(** Six pinned entries over a vector of zeros. *)
Lemma pin_state_spec (n : nat) (v : Dvector) :
  N P * 6 ≤ n → length v = n →
  (∀ j, j < n → v !! j = Some 0%R) →
  length (pin_state P state v) = n
  ∧ pinned_to_state P state (pin_state P state v)
  ∧ zero_elsewhere P n (pin_state P state v).
Proof.
  clear Hstate. intros Hn Hlen Hzero. destruct Hwf as (HN & _ & _).
  unfold pin_state. vec_simpl. split; [done |]. split.
  - unfold pinned_to_state. by vec_simpl.
  - intros j ? ? ? ? ? ? ?. vec_simpl. by apply Hzero.
Qed.

Lemma Solve_problem_spec :
  ∃ pb, Solve_problem P max_delta uninitialized this state coeffs = Some pb
    ∧ pb_fg_eval pb = Build_FG_eval coeffs
    ∧ (length (pb_vars pb) = n_vars P
       ∧ pinned_to_state P state (pb_vars pb)
       ∧ zero_elsewhere P (n_vars P) (pb_vars pb))
    ∧ (length (pb_vars_lowerbound pb) = n_vars P
       ∧ length (pb_vars_upperbound pb) = n_vars P
       ∧ ∀ j, j < n_vars P →
           pb_vars_lowerbound pb !! j
             = Some (vars_bounds_at P max_delta this j).1
           ∧ pb_vars_upperbound pb !! j
             = Some (vars_bounds_at P max_delta this j).2)
    ∧ (length (pb_constraints_lowerbound pb) = n_constraints P
       ∧ pinned_to_state P state (pb_constraints_lowerbound pb)
       ∧ zero_elsewhere P (n_constraints P) (pb_constraints_lowerbound pb))
    ∧ (length (pb_constraints_upperbound pb) = n_constraints P
       ∧ pinned_to_state P state (pb_constraints_upperbound pb)
       ∧ zero_elsewhere P (n_constraints P) (pb_constraints_upperbound pb)).
Proof.
  pose proof Hwf as (HN & Hdt & HL). unfold Solve_problem.
  repeat run_read. cbv zeta.
  assert (∀ n, length (Dvector_new uninitialized n) = n) as Hnew
    by (intros; unfold Dvector_new; by rewrite length_map, length_seq).
  (* the initial guess *)
  destruct (fill_range 0%R 0 (n_vars P)
              (Dvector_new uninitialized (n_vars P)))
    as (vars0 & -> & Hlen0 & Hin0 & _); [lia | by rewrite Hnew |].
  run_bind. rewrite Hnew in Hlen0. repeat run_write.
  (* the variable bounds *)
  destruct (set_bounds_range (-1.0e19) 1.0e19 0 (delta_start P)
              (Dvector_new uninitialized (n_vars P),
               Dvector_new uninitialized (n_vars P)))
    as (b1 & -> & Hb11 & Hb12 & Hin1 & Hout1);
    [simpl; rewrite ?Hnew; layout; lia ..|].
  run_bind. simpl in Hb11, Hb12. rewrite Hnew in Hb11, Hb12.
  destruct (set_bounds_range (- max_delta) max_delta
              (delta_start P) (a_start P) b1)
    as (b2 & -> & Hb21 & Hb22 & Hin2 & Hout2); [layout; lia ..|].
  run_bind.
  destruct (set_bounds_range (steering_delta_ this) (steering_delta_ this)
              (delta_start P) (delta_start P + num_states_in_latency P) b2)
    as (b3 & -> & Hb31 & Hb32 & Hin3 & Hout3); [layout; lia ..|].
  run_bind.
  destruct (set_bounds_range (-1.0) 1.0 (a_start P) (n_vars P) b3)
    as (b4 & -> & Hb41 & Hb42 & Hin4 & Hout4); [layout; lia ..|].
  run_bind.
  destruct (set_bounds_range (a_ this) (a_ this)
              (a_start P) (a_start P + num_states_in_latency P) b4)
    as (b5 & -> & Hb51 & Hb52 & Hin5 & Hout5); [layout; lia ..|].
  run_bind.
  (* the constraint bounds *)
  destruct (set_bounds_range 0 0 0 (n_constraints P)
              (Dvector_new uninitialized (n_constraints P),
               Dvector_new uninitialized (n_constraints P)))
    as (c1 & -> & Hc11 & Hc12 & Hinc & _);
    [simpl; rewrite ?Hnew; lia ..|].
  run_bind. simpl in Hc11, Hc12. rewrite Hnew in Hc11, Hc12.
  repeat run_write.
  eexists. split; [done |]. simpl. split; [done |].
  split; [apply pin_state_spec;
            [layout; lia | done | intros; apply Hin0; lia] |].
  split.
  - split; [lia |]. split; [lia |].
    intros j Hj. unfold vars_bounds_at.
    destruct (decide (a_start P ≤ j < a_start P + num_states_in_latency P)).
    { rewrite !decide_False by (layout; lia).
      rewrite decide_True by (layout; lia). by apply Hin5. }
    destruct (Hout5 j) as [-> ->]; [done |].
    destruct (decide (a_start P ≤ j < n_vars P)).
    { rewrite !decide_False by (layout; lia). by apply Hin4. }
    destruct (Hout4 j) as [-> ->]; [done |].
    destruct (decide (delta_start P ≤ j
                      < delta_start P + num_states_in_latency P)).
    { rewrite decide_False by (layout; lia).
      rewrite decide_True by (layout; lia). by apply Hin3. }
    destruct (Hout3 j) as [-> ->]; [done |].
    destruct (decide (delta_start P ≤ j < a_start P)).
    { rewrite !decide_False by (layout; lia).
      rewrite decide_True by (layout; lia). by apply Hin2. }
    destruct (Hout2 j) as [-> ->]; [done |].
    rewrite decide_True by (layout; lia). apply Hin1. layout; lia.
  - split; apply pin_state_spec;
      first [layout; lia | done | intros; apply Hinc; lia].
Qed.
End Problem.

(** ** What [Solve] extracts from the solution *)

Section Extract.
Variable P : Params.
Variable this : MPC.
Variable solution : solve_result.
Hypothesis Hwf : wf_params P.
Hypothesis Hx : n_vars P ≤ length (x solution).
Hypothesis Hpath_x : length (pred_path_x_ this) = N P - 1.
Hypothesis Hpath_y : length (pred_path_y_ this) = N P - 1.

Lemma copy_pred_path_loop :
  ∃ path, for_range 1 (N P) (copy_pred_path P solution)
            (pred_path_x_ this, pred_path_y_ this) = Some path
    ∧ length path.1 = N P - 1 ∧ length path.2 = N P - 1
    ∧ ∀ k, k < N P - 1 →
        path.1 !! k = Some (x solution !!! (x_start + (k + 1)))
        ∧ path.2 !! k = Some (x solution !!! (y_start P + (k + 1))).
Proof.
  destruct Hwf as (HN & _ & _).
  destruct (for_range_invariant
              (λ i t, length t.1 = N P - 1 ∧ length t.2 = N P - 1
                 ∧ ∀ k, k + 1 < i →
                     t.1 !! k = Some (x solution !!! (x_start + (k + 1)))
                     ∧ t.2 !! k
                       = Some (x solution !!! (y_start P + (k + 1))))
              (copy_pred_path P solution) 1 (N P)
              (pred_path_x_ this, pred_path_y_ this))
    as (path & Hrun & Hl1 & Hl2 & Hall).
  - lia.
  - split; [done |]. split; [done |]. intros; lia.
  - intros i [t1 t2] Hi (Ht1 & Ht2 & Hin). simpl in *.
    unfold copy_pred_path. simpl.
    run_read. run_write. run_read. run_write.
    eexists. split; [done |]. simpl. rewrite !length_insert.
    split; [done |]. split; [done |].
    intros k Hk. destruct (decide (k = i - 1)) as [-> |].
    + rewrite !list_lookup_insert_eq by lia.
      by replace (i - 1 + 1) with i by lia.
    + rewrite !list_lookup_insert_ne by lia. apply Hin. lia.
  - exists path. split; [done |]. split; [done |]. split; [done |].
    intros k Hk. apply Hall. lia.
Qed.

Lemma Solve_extract_spec :
  ∃ out, Solve_extract P this solution = Some out
    ∧ steering_delta_ (mpc_after out)
        = x solution !!! (delta_start P + num_states_in_latency P)
    ∧ a_ (mpc_after out)
        = x solution !!! (a_start P + num_states_in_latency P)
    ∧ (length (pred_path_x_ (mpc_after out)) = N P - 1
       ∧ length (pred_path_y_ (mpc_after out)) = N P - 1
       ∧ ∀ k, k < N P - 1 →
           pred_path_x_ (mpc_after out) !! k
             = Some (x solution !!! (x_start + (k + 1)))
           ∧ pred_path_y_ (mpc_after out) !! k
             = Some (x solution !!! (y_start P + (k + 1))))
    ∧ returned out
        = [ x solution !!! (x_start + 1); x solution !!! (y_start P + 1);
            x solution !!! (psi_start P + 1); x solution !!! (v_start P + 1);
            x solution !!! (cte_start P + 1);
            x solution !!! (epsi_start P + 1);
            x solution !!! (delta_start P + 1);
            x solution !!! (a_start P + 1) ]
    ∧ printed_cost out = obj_value solution.
Proof.
  pose proof Hwf as (HN & _ & HL). unfold Solve_extract. cbv zeta.
  run_read. run_read.
  destruct copy_pred_path_loop as (path & -> & Hpath).
  run_bind. repeat run_read.
  eexists. split; [done |]. by simpl.
Qed.
End Extract.

(** ** The profiles *)

Lemma static_cast_int_nonneg (r : R) (z : Z) :
  (0 ≤ z)%Z → (IZR z <= r < IZR z + 1)%R → static_cast_int r = z.
Proof.
  intros Hz [Hlo Hhi]. unfold static_cast_int.
  assert (0 <= IZR z)%R by (by apply IZR_le).
  destruct (Rlt_dec r 0); [lra |].
  symmetry. apply Int_part_spec. lra.
Qed.

Lemma num_states_in_latency_72MPH :
  num_states_in_latency MPC_PARAMS_72MPH = 2.
Proof.
  unfold num_states_in_latency.
  rewrite (static_cast_int_nonneg _ 2); [done | lia | simpl; lra].
Qed.

Lemma num_states_in_latency_88MPH :
  num_states_in_latency MPC_PARAMS_88MPH = 1.
Proof.
  unfold num_states_in_latency.
  rewrite (static_cast_int_nonneg _ 1); [done | lia | simpl; lra].
Qed.

Lemma num_states_in_latency_default :
  num_states_in_latency MPC_PARAMS_default = 2.
Proof.
  unfold num_states_in_latency.
  rewrite (static_cast_int_nonneg _ 2); [done | lia | simpl; lra].
Qed.


(** [static_cast<int>(q + 0.5)] rounds a positive [q] to the nearest. *)
Lemma num_states_in_latency_round (P : Params) :
  (0 < dt P)%R → is_round (0.1 / dt P) (num_states_in_latency P).
Proof.
  intros Hdt. unfold is_round, num_states_in_latency, static_cast_int.
  assert (0 < 0.1 / dt P)%R as Hq by (apply Rdiv_lt_0_compat; lra).
  destruct (Rlt_dec (0.1 / dt P + 0.5) 0); [lra |].
  destruct (base_Int_part (0.1 / dt P + 0.5)) as [Hlo Hhi].
  assert (0 ≤ Int_part (0.1 / dt P + 0.5))%Z as Hz.
  { apply Z.lt_succ_r. apply lt_IZR. rewrite succ_IZR. lra. }
  rewrite INR_IZR_INZ, Z2Nat.id by done. lra.
Qed.

Lemma wf_params_profile (P : Params) : is_profile P → wf_params P.
Proof.
  intros [-> | [-> | ->]]; unfold wf_params.
  - rewrite num_states_in_latency_72MPH. simpl. split; [lia |].
    split; [lra | lia].
  - rewrite num_states_in_latency_88MPH. simpl. split; [lia |].
    split; [lra | lia].
  - rewrite num_states_in_latency_default. simpl. split; [lia |].
    split; [lra | lia].
Qed.

Lemma wf_params_compiled : wf_params compiled.
Proof. apply wf_params_profile. by left. Qed.

Lemma weights_nonneg_profile (P : Params) :
  is_profile P → weights_nonneg P.
Proof.
  intros [-> | [-> | ->]]; unfold weights_nonneg; simpl; lra.
Qed.

(** The layout of the compiled profile. *)
Example layout_compiled :
  n_vars compiled = 78 ∧ n_constraints compiled = 60
  ∧ y_start compiled = 10 ∧ psi_start compiled = 20
  ∧ v_start compiled = 30 ∧ cte_start compiled = 40
  ∧ epsi_start compiled = 50 ∧ delta_start compiled = 60
  ∧ a_start compiled = 69.
Proof. by repeat split. Qed.

(** At a standstill on the path, only the ten speed terms cost. *)
Example total_cost_standstill :
  total_cost compiled (replicate 78 0%R) = 56250%R.
Proof.
  assert (∀ i, replicate 78 0%R !!! i = 0%R) as Hz.
  { intros i. rewrite list_lookup_total_alt.
    destruct (replicate 78 0%R !! i) as [a|] eqn:E; [| done].
    by apply lookup_replicate in E as [-> _]. }
  unfold total_cost, tracking_cost, magnitude_cost, smoothness_cost,
    cte_at, epsi_at, v_at, delta_at, a_at.
  cbn [sum_below compiled MPC_PARAMS_72MPH N Nat.sub ref_v coeff_cte
       coeff_epsi coeff_v coeff_penalize_delta coeff_penalize_a
       coeff_derivative_delta coeff_derivative_a].
  rewrite !Hz. lra.
Qed.

(** ** The controller object *)

Lemma MPC_new_invariant (P : Params) : MPC_invariant P (MPC_new P).
Proof. unfold MPC_invariant, MPC_new. simpl. by rewrite length_replicate. Qed.

Section Solve_run.
Variable P : Params.
Variable max_delta : R.
Variable uninitialized : nat → R.
Variable ipopt_solve : Problem → solve_result.
Variable this : MPC.
Variable state coeffs : Dvector.
Hypothesis Hwf : wf_params P.
Hypothesis Hstate : 6 ≤ length state.
Hypothesis Hsolver : solver_contract ipopt_solve.
Hypothesis Hthis : MPC_invariant P this.

(** [Solve] returns, and what it returns is read off the solution of
    the problem it built. *)
Lemma Solve_runs :
  ∃ pb out,
    Solve_problem P max_delta uninitialized this state coeffs = Some pb
    ∧ Solve_extract P this (ipopt_solve pb) = Some out
    ∧ Solve P max_delta uninitialized ipopt_solve this state coeffs
      = Some out
    ∧ length (x (ipopt_solve pb)) = n_vars P.
Proof.
  destruct (Solve_problem_spec P max_delta uninitialized this state coeffs
              Hwf Hstate) as (pb & Hpb & _ & (Hlen & _) & _).
  destruct Hthis as [Hpx Hpy].
  assert (length (x (ipopt_solve pb)) = n_vars P) as Hx
    by (by rewrite Hsolver).
  destruct (Solve_extract_spec P this (ipopt_solve pb) Hwf
              ltac:(lia) Hpx Hpy) as (out & Hout & _).
  exists pb, out. unfold Solve. rewrite Hpb. by run_bind.
Qed.

(** [Solve] leaves the object in a state the next call can start from. *)
Lemma Solve_preserves_invariant (out : Solve_outcome) :
  Solve P max_delta uninitialized ipopt_solve this state coeffs = Some out →
  MPC_invariant P (mpc_after out).
Proof.
  intros Hout.
  destruct (Solve_problem_spec P max_delta uninitialized this state coeffs
              Hwf Hstate) as (pb & Hpb & _ & (Hlen & _) & _).
  destruct Hthis as [Hpx Hpy].
  assert (n_vars P ≤ length (x (ipopt_solve pb))) as Hx
    by (rewrite Hsolver; lia).
  destruct (Solve_extract_spec P this (ipopt_solve pb) Hwf Hx Hpx Hpy)
    as (out' & Hout' & _ & _ & (Hl1 & Hl2 & _) & _).
  unfold Solve in Hout. rewrite Hpb in Hout. simpl in Hout.
  rewrite Hout' in Hout. injection Hout as <-. by split.
Qed.
End Solve_run.

Lemma echo_solver_contract : solver_contract echo_solver.
Proof. by intros pb. Qed.

Lemma ramp_solver_contract : solver_contract ramp_solver.
Proof. intros pb. simpl. by rewrite length_map, length_seq. Qed.

Lemma scenario_state_length : 6 ≤ length scenario_state.
Proof. simpl. lia. Qed.

(** The solution of [ramp_solver], read at an index inside it. *)
Lemma ramp_solver_at (pb : Problem) (i : nat) :
  i < length (pb_vars pb) →
  x (ramp_solver pb) !!! i = IZR (Z.of_nat i).
Proof.
  intros Hi. apply list_lookup_total_correct. simpl.
  rewrite list_lookup_fmap, lookup_seq_lt by done. done.
Qed.

(** * The claims *)

(** ** C1: which actuation [Solve] returns *)

(** C1, as amended.  The last two elements of the vector returned by
    [Solve] are the solved steering and acceleration at index 1 past
    [delta_start] and [a_start]; the values at index
    [num_states_in_latency] past the block starts are what [Solve] stores
    into [steering_delta_] and [a_]. *)
Theorem C1_returned_actuation_is_step_one
    (P : Params) (max_delta : R) (uninitialized : nat → R)
    (ipopt_solve : Problem → solve_result) (this : MPC)
    (state coeffs : Dvector) :
  wf_params P → 6 ≤ length state →
  solver_contract ipopt_solve → MPC_invariant P this →
  ∃ pb out,
    Solve_problem P max_delta uninitialized this state coeffs = Some pb
    ∧ Solve P max_delta uninitialized ipopt_solve this state coeffs = Some out
    ∧ length (returned out) = 8
    ∧ returned out !! 6 = Some (x (ipopt_solve pb) !!! (delta_start P + 1))
    ∧ returned out !! 7 = Some (x (ipopt_solve pb) !!! (a_start P + 1))
    ∧ steering_delta_ (mpc_after out)
      = x (ipopt_solve pb) !!! (delta_start P + num_states_in_latency P)
    ∧ a_ (mpc_after out)
      = x (ipopt_solve pb) !!! (a_start P + num_states_in_latency P).
Proof.
  intros Hwf Hstate Hsolver [Hpx Hpy].
  destruct (Solve_runs P max_delta uninitialized ipopt_solve this state
              coeffs Hwf Hstate Hsolver (conj Hpx Hpy))
    as (pb & out & Hpb & Hext & Hrun & Hlen).
  destruct (Solve_extract_spec P this (ipopt_solve pb) Hwf
              ltac:(lia) Hpx Hpy)
    as (out' & Hout' & Hsd & Ha & _ & Hret & _).
  assert (out' = out) as -> by congruence.
  exists pb, out. rewrite Hret. by repeat split.
Qed.

Lemma C1_returned_actuation_is_step_one_witness :
  ∃ pb out,
    Solve_problem compiled 0 stale (MPC_new compiled) scenario_state
      straight_road = Some pb
    ∧ Solve compiled 0 stale ramp_solver (MPC_new compiled) scenario_state
        straight_road = Some out
    ∧ length (returned out) = 8
    ∧ returned out !! 6
      = Some (x (ramp_solver pb) !!! (delta_start compiled + 1))
    ∧ returned out !! 7 = Some (x (ramp_solver pb) !!! (a_start compiled + 1))
    ∧ steering_delta_ (mpc_after out)
      = x (ramp_solver pb)
          !!! (delta_start compiled + num_states_in_latency compiled)
    ∧ a_ (mpc_after out)
      = x (ramp_solver pb)
          !!! (a_start compiled + num_states_in_latency compiled).
Proof.
  apply (C1_returned_actuation_is_step_one compiled 0 stale ramp_solver
           (MPC_new compiled) scenario_state straight_road).
  - apply wf_params_compiled.
  - simpl. lia.
  - apply ramp_solver_contract.
  - apply MPC_new_invariant.
Defined.

(** C1, as stated, fails: with a solution that holds [i] at index [i], the
    returned steering is 61 and the returned acceleration 70, while the
    retained [steering_delta_] is 62 and the retained [a_] is 71. *)
Lemma C1_counterexample :
  ∃ out,
    Solve compiled 0 stale ramp_solver (MPC_new compiled) scenario_state
      straight_road = Some out
    ∧ returned out !! 6 = Some 61%R
    ∧ steering_delta_ (mpc_after out) = 62%R
    ∧ returned out !! 7 = Some 70%R
    ∧ a_ (mpc_after out) = 71%R
    ∧ returned out !! 6 ≠ Some (steering_delta_ (mpc_after out))
    ∧ returned out !! 7 ≠ Some (a_ (mpc_after out)).
Proof.
  destruct (Solve_runs compiled 0 stale ramp_solver (MPC_new compiled)
              scenario_state straight_road wf_params_compiled
              scenario_state_length ramp_solver_contract
              (MPC_new_invariant compiled))
    as (pb & out & Hpb & Hext & Hrun & Hlen).
  rewrite ramp_solver_contract in Hlen.
  destruct (Solve_extract_spec compiled (MPC_new compiled) (ramp_solver pb)
              wf_params_compiled)
    as (out' & Hout' & Hsd & Ha & _ & Hret & _);
    [rewrite ramp_solver_contract; lia
    | apply MPC_new_invariant | apply MPC_new_invariant |].
  assert (out' = out) as -> by congruence.
  change (num_states_in_latency compiled)
    with (num_states_in_latency MPC_PARAMS_72MPH) in Hsd, Ha.
  rewrite num_states_in_latency_72MPH in Hsd, Ha.
  assert (∀ i, i < 78 → x (ramp_solver pb) !!! i = IZR (Z.of_nat i))
    as Hramp.
  { intros i Hi. apply ramp_solver_at. rewrite Hlen. vm_compute. lia. }
  rewrite !Hramp in Hret by (vm_compute; lia).
  rewrite !Hramp in Hsd, Ha by (vm_compute; lia).
  cbv [a_start delta_start epsi_start cte_start v_start psi_start y_start
       x_start compiled MPC_PARAMS_72MPH N Nat.add Nat.sub
       Z.of_nat Pos.of_succ_nat Pos.succ] in Hret, Hsd, Ha.
  exists out. rewrite Hret, Hsd, Ha.
  split; [exact Hrun |].
  split; [reflexivity |]. split; [reflexivity |].
  split; [reflexivity |]. split; [reflexivity |].
  split; intros [= H]; lra.
Qed.

(** ** C2: the transition residuals *)

(** [path_f'] is the slope of [path_f]. *)
Lemma path_f'_is_the_slope (coeffs : Dvector) (x : R) :
  derivable_pt_lim (path_f coeffs) x (path_f' coeffs x).
Proof.
  unfold path_f, path_f'.
  set (c0 := coeffs !!! 0). set (c1 := coeffs !!! 1).
  set (c2 := coeffs !!! 2). set (c3 := coeffs !!! 3).
  replace (c1 + 2 * c2 * x + 3 * c3 * x ^ 2)%R
    with (0 + c1 * 1 + c2 * (INR 2 * x ^ 1) + c3 * (INR 3 * x ^ 2))%R
    by (simpl; lra).
  apply (derivable_pt_lim_plus
           (λ y, c0 + c1 * y + c2 * y ^ 2)%R (λ y, c3 * y ^ 3)%R).
  - apply (derivable_pt_lim_plus (λ y, c0 + c1 * y)%R (λ y, c2 * y ^ 2)%R).
    + apply (derivable_pt_lim_plus (λ _, c0) (λ y, c1 * y)%R).
      * apply derivable_pt_lim_const.
      * apply (derivable_pt_lim_scal id c1). apply derivable_pt_lim_id.
    + apply (derivable_pt_lim_scal (λ y, y ^ 2)%R c2).
      apply (derivable_pt_lim_pow x 2).
  - apply (derivable_pt_lim_scal (λ y, y ^ 3)%R c3).
    apply (derivable_pt_lim_pow x 3).
Qed.

(** The helper returns that slope when it is given four coefficients. *)
Lemma poly3_derivative_is_path_f' (coeffs : Dvector) (x : R) :
  4 ≤ length coeffs → poly3_derivative coeffs x = Some (path_f' coeffs x).
Proof.
  intros Hlen. unfold poly3_derivative. by repeat run_read.
Qed.

(** The all-zero decision vector on a straight road satisfies the six
    equations, so the last part of C2 is about something. *)
Lemma zero_vector_satisfies_model (P : Params) (n : nat) :
  satisfies_model P (replicate n 0%R) straight_road.
Proof.
  assert (∀ i, replicate n 0%R !!! i = 0%R) as Hz.
  { intros i. rewrite list_lookup_total_alt.
    destruct (replicate n 0%R !! i) as [a|] eqn:E; [| done].
    by apply lookup_replicate in E as [-> _]. }
  intros i _.
  unfold predicted_x, predicted_y, predicted_psi, predicted_v,
    predicted_cte, predicted_epsi, psides_at, path_f, path_f',
    x_at, y_at, psi_at, v_at, cte_at, epsi_at, delta_at, a_at.
  rewrite !Hz. unfold straight_road.
  change ([0; 0; 0; 0]%R !!! 0) with 0%R.
  change ([0; 0; 0; 0]%R !!! 1) with 0%R.
  change ([0; 0; 0; 0]%R !!! 2) with 0%R.
  change ([0; 0; 0; 0]%R !!! 3) with 0%R.
  replace (0 + 2 * 0 * 0 + 3 * 0 * 0 ^ 2)%R with 0%R by lra.
  rewrite atan_0. repeat split; lra.
Qed.

(** C2.  For every decision vector and every transition [i] in
    [[0, N-1)], the six constraint outputs that [FG_eval::operator()]
    writes at [2 + start + i] are the variable of step [i+1] minus the value
    the six discretised equations predict from step [i], with [f] the cubic
    over [coeffs], [f'] its slope and [psides_i = atan (f' (x_i))]; and a
    decision vector that satisfies the six equations makes all these outputs
    zero. *)
Theorem C2_transition_residuals
    (P : Params) (this : FG_eval) (fg vars : Dvector) :
  wf_params P →
  n_vars P ≤ length vars →
  4 ≤ length (coeffs this) →
  1 + n_constraints P ≤ length fg →
  ∃ fg', FG_eval_operator P this fg vars = Some fg'
    ∧ (∀ i, i < N P - 1 → residuals_at P (coeffs this) vars fg' i)
    ∧ (∀ x, derivable_pt_lim (path_f (coeffs this)) x
              (path_f' (coeffs this) x))
    ∧ (satisfies_model P vars (coeffs this) →
       ∀ i, i < N P - 1 → residuals_zero_at P fg' i).
Proof.
  intros Hwf Hvars Hcoeffs Hfg.
  destruct (FG_eval_operator_spec P this vars Hwf Hvars Hcoeffs fg Hfg)
    as (fg' & Hrun & _ & _ & _ & Hres).
  exists fg'. split; [done |]. split; [done |].
  split; [intros x; apply path_f'_is_the_slope |].
  intros Hmodel i Hi.
  destruct (Hres i Hi) as (Hx & Hy & Hpsi & Hv & Hcte & Hepsi).
  destruct (Hmodel i Hi) as (Ex & Ey & Epsi & Ev & Ecte & Eepsi).
  unfold residuals_zero_at.
  rewrite Hx, Hy, Hpsi, Hv, Hcte, Hepsi, Ex, Ey, Epsi, Ev, Ecte, Eepsi.
  repeat split; f_equal; lra.
Qed.

Lemma C2_transition_residuals_witness :
  ∃ fg', FG_eval_operator compiled (Build_FG_eval straight_road)
           (replicate 61 0%R) (replicate 78 0%R) = Some fg'
    ∧ (∀ i, i < N compiled - 1 →
         residuals_at compiled straight_road (replicate 78 0%R) fg' i)
    ∧ (∀ x, derivable_pt_lim (path_f straight_road) x
              (path_f' straight_road x))
    ∧ (satisfies_model compiled (replicate 78 0%R) straight_road →
       ∀ i, i < N compiled - 1 → residuals_zero_at compiled fg' i).
Proof.
  apply (C2_transition_residuals compiled (Build_FG_eval straight_road)
           (replicate 61 0%R) (replicate 78 0%R)).
  - apply wf_params_compiled.
  - simpl. vm_compute. lia.
  - simpl. lia.
  - simpl. vm_compute. lia.
Defined.

(** ** C3: the latency hold in the variable bounds *)



(** ** C4: the constraint outputs of time step 0 *)

(** C4, as amended.  For every decision vector, the six constraint outputs
    at [1 + x_start], ..., [1 + epsi_start] are the time-step-0 variables
    themselves; no initial value is subtracted from them. *)
Theorem C4_initial_outputs_are_the_variables
    (P : Params) (this : FG_eval) (fg vars : Dvector) :
  wf_params P →
  n_vars P ≤ length vars →
  4 ≤ length (coeffs this) →
  1 + n_constraints P ≤ length fg →
  ∃ fg', FG_eval_operator P this fg vars = Some fg'
    ∧ fg' !! (1 + x_start) = Some (vars !!! x_start)
    ∧ fg' !! (1 + y_start P) = Some (vars !!! y_start P)
    ∧ fg' !! (1 + psi_start P) = Some (vars !!! psi_start P)
    ∧ fg' !! (1 + v_start P) = Some (vars !!! v_start P)
    ∧ fg' !! (1 + cte_start P) = Some (vars !!! cte_start P)
    ∧ fg' !! (1 + epsi_start P) = Some (vars !!! epsi_start P).
Proof.
  intros Hwf Hvars Hcoeffs Hfg.
  destruct (FG_eval_operator_spec P this vars Hwf Hvars Hcoeffs fg Hfg)
    as (fg' & Hrun & _ & _ & Hinit & _).
  exists fg'. split; [done |].
  unfold initial_entries, x_at, y_at, psi_at, v_at, cte_at, epsi_at in Hinit.
  by rewrite !Nat.add_0_r in Hinit.
Qed.

Lemma C4_initial_outputs_are_the_variables_witness :
  ∃ fg', FG_eval_operator compiled (Build_FG_eval straight_road)
           (replicate 61 0%R) (replicate 78 1%R) = Some fg'
    ∧ fg' !! (1 + x_start) = Some (replicate 78 1%R !!! x_start)
    ∧ fg' !! (1 + y_start compiled)
      = Some (replicate 78 1%R !!! y_start compiled)
    ∧ fg' !! (1 + psi_start compiled)
      = Some (replicate 78 1%R !!! psi_start compiled)
    ∧ fg' !! (1 + v_start compiled)
      = Some (replicate 78 1%R !!! v_start compiled)
    ∧ fg' !! (1 + cte_start compiled)
      = Some (replicate 78 1%R !!! cte_start compiled)
    ∧ fg' !! (1 + epsi_start compiled)
      = Some (replicate 78 1%R !!! epsi_start compiled).
Proof.
  apply (C4_initial_outputs_are_the_variables compiled
           (Build_FG_eval straight_road) (replicate 61 0%R)
           (replicate 78 1%R)).
  - apply wf_params_compiled.
  - simpl. vm_compute. lia.
  - simpl. lia.
  - simpl. vm_compute. lia.
Defined.

(** C4, as stated, fails: evaluated at the initial guess that [Solve]
    builds from the state (1, 2, 3, 4, 5, 6), the output at [1 + x_start]
    is 1, not 1 - 1, and the output at [1 + v_start] is 4, not 4 - 4. *)
Lemma C4_counterexample :
  ∃ pb fg',
    Solve_problem compiled 0 stale (MPC_new compiled) distinct_state
      straight_road = Some pb
    ∧ FG_eval_operator compiled (pb_fg_eval pb) (replicate 61 0%R)
        (pb_vars pb) = Some fg'
    ∧ fg' !! (1 + x_start) = Some 1%R
    ∧ fg' !! (1 + x_start)
      ≠ Some (pb_vars pb !!! x_start - distinct_state !!! 0%nat)%R
    ∧ fg' !! (1 + v_start compiled) = Some 4%R
    ∧ fg' !! (1 + v_start compiled)
      ≠ Some (pb_vars pb !!! v_start compiled - distinct_state !!! 3%nat)%R.
Proof.
  destruct (Solve_problem_spec compiled 0 stale (MPC_new compiled)
              distinct_state straight_road wf_params_compiled)
    as (pb & Hpb & Hfg & (Hlen & Hpin & _) & _); [simpl; lia |].
  destruct Hpin as (Hx & _ & _ & Hv & _).
  apply list_lookup_total_correct in Hx, Hv.
  destruct (FG_eval_operator_spec compiled (pb_fg_eval pb) (pb_vars pb)
              wf_params_compiled) with (fg := replicate 61 0%R)
    as (fg' & Hrun & _ & _ & Hinit & _);
    [lia | rewrite Hfg; simpl; lia | simpl; vm_compute; lia |].
  destruct Hinit as (Hx' & _ & _ & Hv' & _).
  unfold x_at, v_at in Hx', Hv'.
  rewrite (Nat.add_0_r x_start) in Hx'.
  rewrite (Nat.add_0_r (v_start compiled)) in Hv'.
  exists pb, fg'. rewrite Hx', Hv', Hx, Hv.
  change (distinct_state !!! 0) with 1%R.
  change (distinct_state !!! 3) with 4%R.
  split; [done |]. split; [done |]. split; [done |].
  split; [intros [= H]; lra |]. split; [done |]. intros [= H]; lra.
Qed.

(** ** C5: the initial guess and the constraint bounds *)

(** C5.  In the problem that [Solve] builds, the initial decision vector
    holds the six state scalars at the six block starts and zero everywhere
    else, and so do the lower and the upper constraint bounds. *)
Theorem C5_initial_guess_and_constraint_bounds
    (P : Params) (max_delta : R) (uninitialized : nat → R) (this : MPC)
    (state coeffs : Dvector) :
  wf_params P → 6 ≤ length state →
  ∃ pb,
    Solve_problem P max_delta uninitialized this state coeffs = Some pb
    ∧ (length (pb_vars pb) = n_vars P
       ∧ pinned_to_state P state (pb_vars pb)
       ∧ zero_elsewhere P (n_vars P) (pb_vars pb))
    ∧ (length (pb_constraints_lowerbound pb) = n_constraints P
       ∧ pinned_to_state P state (pb_constraints_lowerbound pb)
       ∧ zero_elsewhere P (n_constraints P) (pb_constraints_lowerbound pb))
    ∧ (length (pb_constraints_upperbound pb) = n_constraints P
       ∧ pinned_to_state P state (pb_constraints_upperbound pb)
       ∧ zero_elsewhere P (n_constraints P) (pb_constraints_upperbound pb)).
Proof.
  intros Hwf Hstate.
  destruct (Solve_problem_spec P max_delta uninitialized this state coeffs
              Hwf Hstate) as (pb & Hpb & _ & Hvars & _ & Hlo & Hup).
  by exists pb.
Qed.

Lemma C5_initial_guess_and_constraint_bounds_witness :
  ∃ pb,
    Solve_problem compiled 0.436332 stale driving_MPC distinct_state
      straight_road = Some pb
    ∧ (length (pb_vars pb) = n_vars compiled
       ∧ pinned_to_state compiled distinct_state (pb_vars pb)
       ∧ zero_elsewhere compiled (n_vars compiled) (pb_vars pb))
    ∧ (length (pb_constraints_lowerbound pb) = n_constraints compiled
       ∧ pinned_to_state compiled distinct_state
           (pb_constraints_lowerbound pb)
       ∧ zero_elsewhere compiled (n_constraints compiled)
           (pb_constraints_lowerbound pb))
    ∧ (length (pb_constraints_upperbound pb) = n_constraints compiled
       ∧ pinned_to_state compiled distinct_state
           (pb_constraints_upperbound pb)
       ∧ zero_elsewhere compiled (n_constraints compiled)
           (pb_constraints_upperbound pb)).
Proof.
  apply (C5_initial_guess_and_constraint_bounds compiled 0.436332 stale
           driving_MPC distinct_state straight_road).
  - apply wf_params_compiled.
  - simpl. lia.
Defined.

(** ** C6: the cost *)

(** C6.  For every decision vector, the [fg[0]] computed by
    [FG_eval::operator()] is the sum over [i] in [[0,N)] of the tracking
    terms, plus the sum over [[0,N-1)] of the actuator-magnitude terms, plus
    the sum over [[0,N-2)] of the actuator-smoothness terms; in each of the
    three profiles every weight is non-negative. *)
Theorem C6_cost_is_sum_of_three_sums
    (P : Params) (this : FG_eval) (fg vars : Dvector) :
  wf_params P →
  n_vars P ≤ length vars →
  4 ≤ length (coeffs this) →
  1 + n_constraints P ≤ length fg →
  ∃ fg', FG_eval_operator P this fg vars = Some fg'
    ∧ fg' !! 0
      = Some (sum_below (tracking_cost P vars) (N P)
              + sum_below (magnitude_cost P vars) (N P - 1)
              + sum_below (smoothness_cost P vars) (N P - 2))%R
    ∧ weights_nonneg MPC_PARAMS_72MPH
    ∧ weights_nonneg MPC_PARAMS_88MPH
    ∧ weights_nonneg MPC_PARAMS_default.
Proof.
  intros Hwf Hvars Hcoeffs Hfg.
  destruct (FG_eval_operator_spec P this vars Hwf Hvars Hcoeffs fg Hfg)
    as (fg' & Hrun & _ & Hcost & _).
  exists fg'. split; [done |]. split; [done |].
  repeat split; apply weights_nonneg_profile; unfold is_profile; auto.
Qed.

Lemma C6_cost_is_sum_of_three_sums_witness :
  ∃ fg', FG_eval_operator compiled (Build_FG_eval straight_road)
           (replicate 61 0%R) (replicate 78 1%R) = Some fg'
    ∧ fg' !! 0
      = Some (sum_below (tracking_cost compiled (replicate 78 1%R))
                (N compiled)
              + sum_below (magnitude_cost compiled (replicate 78 1%R))
                  (N compiled - 1)
              + sum_below (smoothness_cost compiled (replicate 78 1%R))
                  (N compiled - 2))%R
    ∧ weights_nonneg MPC_PARAMS_72MPH
    ∧ weights_nonneg MPC_PARAMS_88MPH
    ∧ weights_nonneg MPC_PARAMS_default.
Proof.
  apply (C6_cost_is_sum_of_three_sums compiled
           (Build_FG_eval straight_road) (replicate 61 0%R)
           (replicate 78 1%R)).
  - apply wf_params_compiled.
  - simpl. vm_compute. lia.
  - simpl. lia.
  - simpl. vm_compute. lia.
Defined.

(** ** C7: a solve that did not succeed *)

(** The status flag only feeds the local [ok], which nothing reads. *)
Lemma Solve_extract_with_status
    (P : Params) (this : MPC) (st : status_type) (solution : solve_result) :
  Solve_extract P this (with_status st solution)
  = Solve_extract P this solution.
Proof. reflexivity. Qed.

(** C7.  Whatever status the solver reports, [Solve] returns, and returns
    what it returns with the status the solver did report: the retained
    [steering_delta_] and [a_] are read from the solution vector, the
    predicted-path buffers are overwritten from it, the result has eight
    elements, and the printed cost is the solver's. *)
Theorem C7_status_has_no_effect
    (P : Params) (max_delta : R) (uninitialized : nat → R)
    (ipopt_solve : Problem → solve_result) (st : status_type)
    (this : MPC) (state coeffs : Dvector) :
  wf_params P → 6 ≤ length state →
  solver_contract ipopt_solve → MPC_invariant P this →
  ∃ pb out,
    Solve_problem P max_delta uninitialized this state coeffs = Some pb
    ∧ Solve P max_delta uninitialized
        (λ pb, with_status st (ipopt_solve pb)) this state coeffs = Some out
    ∧ Solve P max_delta uninitialized ipopt_solve this state coeffs = Some out
    ∧ steering_delta_ (mpc_after out)
      = x (ipopt_solve pb) !!! (delta_start P + num_states_in_latency P)
    ∧ a_ (mpc_after out)
      = x (ipopt_solve pb) !!! (a_start P + num_states_in_latency P)
    ∧ (∀ k, k < N P - 1 →
         pred_path_x_ (mpc_after out) !! k
           = Some (x (ipopt_solve pb) !!! (x_start + (k + 1)))
         ∧ pred_path_y_ (mpc_after out) !! k
           = Some (x (ipopt_solve pb) !!! (y_start P + (k + 1))))
    ∧ length (returned out) = 8
    ∧ printed_cost out = obj_value (ipopt_solve pb).
Proof.
  intros Hwf Hstate Hsolver [Hpx Hpy].
  destruct (Solve_runs P max_delta uninitialized ipopt_solve this state
              coeffs Hwf Hstate Hsolver (conj Hpx Hpy))
    as (pb & out & Hpb & Hext & Hrun & Hlen).
  destruct (Solve_extract_spec P this (ipopt_solve pb) Hwf
              ltac:(lia) Hpx Hpy)
    as (out' & Hout' & Hsd & Ha & (_ & _ & Hpath) & Hret & Hcost).
  assert (out' = out) as -> by congruence.
  exists pb, out. split; [done |]. split.
  { unfold Solve. rewrite Hpb. simpl.
    by rewrite Solve_extract_with_status. }
  split; [done |]. split; [done |]. split; [done |]. split; [done |].
  split; [by rewrite Hret | done].
Qed.

Lemma C7_status_has_no_effect_witness :
  ∃ pb out,
    Solve_problem compiled 0.436332 stale driving_MPC scenario_state
      straight_road = Some pb
    ∧ Solve compiled 0.436332 stale
        (λ pb, with_status success (ramp_solver pb)) driving_MPC
        scenario_state straight_road = Some out
    ∧ Solve compiled 0.436332 stale ramp_solver driving_MPC scenario_state
        straight_road = Some out
    ∧ steering_delta_ (mpc_after out)
      = x (ramp_solver pb)
          !!! (delta_start compiled + num_states_in_latency compiled)
    ∧ a_ (mpc_after out)
      = x (ramp_solver pb)
          !!! (a_start compiled + num_states_in_latency compiled)
    ∧ (∀ k, k < N compiled - 1 →
         pred_path_x_ (mpc_after out) !! k
           = Some (x (ramp_solver pb) !!! (x_start + (k + 1)))
         ∧ pred_path_y_ (mpc_after out) !! k
           = Some (x (ramp_solver pb) !!! (y_start compiled + (k + 1))))
    ∧ length (returned out) = 8
    ∧ printed_cost out = obj_value (ramp_solver pb).
Proof.
  apply (C7_status_has_no_effect compiled 0.436332 stale ramp_solver success
           driving_MPC scenario_state straight_road).
  - apply wf_params_compiled.
  - simpl. lia.
  - apply ramp_solver_contract.
  - split; reflexivity.
Defined.

(** ** C8: malformed inputs *)

(** C8, as amended.  [Solve] does not look at the length of the
    coefficient vector and rejects nothing before it builds the problem:
    for coefficients of any length and a state of at least six components
    it builds the decision vector and the bounds and hands the coefficients
    to [FG_eval] as they are.  With four coefficients or more (five, say)
    the functor it hands over evaluates, and [Solve] extracts from the
    answer of the solver it calls; with fewer than four the functor it
    hands over reads past the end of the coefficient vector at every
    evaluation. *)
Theorem C8_no_input_validation
    (P : Params) (max_delta : R) (uninitialized : nat → R)
    (ipopt_solve : Problem → solve_result) (this : MPC)
    (state coeffs fg vars : Dvector) :
  wf_params P → 6 ≤ length state →
  n_vars P ≤ length vars → 1 + n_constraints P ≤ length fg →
  ∃ pb,
    Solve_problem P max_delta uninitialized this state coeffs = Some pb
    ∧ pb_fg_eval pb = Build_FG_eval coeffs
    ∧ length (pb_vars pb) = n_vars P
    ∧ (4 ≤ length coeffs →
       is_Some (FG_eval_operator P (pb_fg_eval pb) fg vars)
       ∧ Solve P max_delta uninitialized ipopt_solve this state coeffs
         = Solve_extract P this (ipopt_solve pb))
    ∧ (length coeffs < 4 →
       FG_eval_operator P (pb_fg_eval pb) fg vars = None).
Proof.
  intros Hwf Hstate Hvars Hfg.
  destruct (Solve_problem_spec P max_delta uninitialized this state coeffs
              Hwf Hstate) as (pb & Hpb & Heval & (Hlen & _) & _).
  exists pb. split; [done |]. split; [done |]. split; [done |].
  rewrite Heval. split.
  - intros Hcoeffs. split.
    + destruct (FG_eval_operator_spec P (Build_FG_eval coeffs) vars Hwf
                  Hvars Hcoeffs fg Hfg) as (fg' & Hrun & _).
      by exists fg'.
    + unfold Solve. by rewrite Hpb.
  - intros Hshort. by apply FG_eval_operator_short_coeffs.
Qed.

Lemma C8_no_input_validation_witness :
  ∃ pb,
    Solve_problem compiled 0.436332 stale driving_MPC scenario_state
      five_coeffs = Some pb
    ∧ pb_fg_eval pb = Build_FG_eval five_coeffs
    ∧ length (pb_vars pb) = n_vars compiled
    ∧ (4 ≤ length five_coeffs →
       is_Some (FG_eval_operator compiled (pb_fg_eval pb)
                  (replicate 61 0%R) (replicate 78 0%R))
       ∧ Solve compiled 0.436332 stale echo_solver driving_MPC
           scenario_state five_coeffs
         = Solve_extract compiled driving_MPC (echo_solver pb))
    ∧ (length five_coeffs < 4 →
       FG_eval_operator compiled (pb_fg_eval pb)
         (replicate 61 0%R) (replicate 78 0%R) = None).
Proof.
  apply (C8_no_input_validation compiled 0.436332 stale echo_solver
           driving_MPC scenario_state five_coeffs
           (replicate 61 0%R) (replicate 78 0%R)).
  - apply wf_params_compiled.
  - simpl. lia.
  - simpl. vm_compute. lia.
  - simpl. vm_compute. lia.
Defined.

(** C8, as stated, fails: given five coefficients, [Solve] builds the
    problem around them, the functor it hands over evaluates at the
    initial guess, and [Solve] calls the solver and returns a result. *)
Lemma C8_counterexample :
  length five_coeffs ≠ 4
  ∧ ∃ pb out,
      Solve_problem compiled 0.436332 stale (MPC_new compiled) scenario_state
        five_coeffs = Some pb
      ∧ pb_fg_eval pb = Build_FG_eval five_coeffs
      ∧ is_Some (FG_eval_operator compiled (pb_fg_eval pb)
                   (replicate 61 0%R) (pb_vars pb))
      ∧ Solve compiled 0.436332 stale echo_solver (MPC_new compiled)
          scenario_state five_coeffs = Some out.
Proof.
  split; [simpl; lia |].
  destruct (Solve_runs compiled 0.436332 stale echo_solver (MPC_new compiled)
              scenario_state five_coeffs wf_params_compiled
              scenario_state_length echo_solver_contract
              (MPC_new_invariant compiled))
    as (pb & out & Hpb & _ & Hrun & _).
  destruct (Solve_problem_spec compiled 0.436332 stale (MPC_new compiled)
              scenario_state five_coeffs wf_params_compiled
              scenario_state_length) as (pb' & Hpb' & Hfg & (Hlen & _) & _).
  assert (pb' = pb) as -> by congruence.
  exists pb, out. split; [done |]. split; [done |]. split; [| done].
  destruct (FG_eval_operator_spec compiled (pb_fg_eval pb) (pb_vars pb)
              wf_params_compiled) with (fg := replicate 61 0%R)
    as (fg' & Hrun' & _);
    [lia | rewrite Hfg; simpl; lia | simpl; vm_compute; lia |].
  by exists fg'.
Qed.

(** ** C9: the compiled configuration *)

(** C9, as amended.  The profile the source selects has [N = 10],
    [dt = 0.05] and [ref_v = 75]; the reference speed 85 belongs to the
    fallback profile, whose horizon is [N = 12]. *)
Theorem C9_compiled_configuration :
  N compiled = 10 ∧ dt compiled = 0.05%R ∧ ref_v compiled = 75%R
  ∧ ref_v MPC_PARAMS_default = 85%R ∧ N MPC_PARAMS_default = 12
  ∧ dt MPC_PARAMS_default = 0.05%R.
Proof. by repeat split. Qed.

(** C9, as stated, fails: the compiled reference speed is not 85. *)
Lemma C9_counterexample :
  ¬ (N compiled = 10 ∧ dt compiled = 0.05%R ∧ ref_v compiled = 85%R).
Proof. intros (_ & _ & H). simpl in H. lra. Qed.

(** ** C10: every access is within bounds *)

(** C10.  With a state of at least six components and at least four
    coefficients, every indexed access of [Solve] and of
    [FG_eval::operator()] is within bounds: both run to their end, given a
    solver that returns one entry per variable and calls the functor on
    vectors of the sizes [Solve] fixed; and with fewer than four
    coefficients the functor reads past the end of the coefficient
    vector. *)
Theorem C10_accesses_within_bounds
    (P : Params) (max_delta : R) (uninitialized : nat → R)
    (ipopt_solve : Problem → solve_result) (this : MPC)
    (state coeffs fg vars : Dvector) :
  wf_params P →
  6 ≤ length state →
  4 ≤ length coeffs →
  solver_contract ipopt_solve → MPC_invariant P this →
  length vars = n_vars P → length fg = 1 + n_constraints P →
  is_Some (Solve P max_delta uninitialized ipopt_solve this state coeffs)
  ∧ is_Some (FG_eval_operator P (Build_FG_eval coeffs) fg vars)
  ∧ ∀ short, length short < 4 →
      FG_eval_operator P (Build_FG_eval short) fg vars = None.
Proof.
  intros Hwf Hstate Hcoeffs Hsolver Hthis Hvars Hfg.
  split; [| split].
  - destruct (Solve_runs P max_delta uninitialized ipopt_solve this state
                coeffs Hwf Hstate Hsolver Hthis)
      as (pb & out & _ & _ & Hrun & _).
    by exists out.
  - destruct (FG_eval_operator_spec P (Build_FG_eval coeffs) vars Hwf)
      with (fg := fg) as (fg' & Hrun & _); [lia | done | lia |].
    by exists fg'.
  - intros short Hshort.
    apply FG_eval_operator_short_coeffs; [done | lia | lia | done].
Qed.

Lemma C10_accesses_within_bounds_witness :
  is_Some (Solve compiled 0.436332 stale echo_solver (MPC_new compiled)
             scenario_state straight_road)
  ∧ is_Some (FG_eval_operator compiled (Build_FG_eval straight_road)
               (replicate 61 0%R) (replicate 78 0%R))
  ∧ ∀ short, length short < 4 →
      FG_eval_operator compiled (Build_FG_eval short)
        (replicate 61 0%R) (replicate 78 0%R) = None.
Proof.
  apply (C10_accesses_within_bounds compiled 0.436332 stale echo_solver
           (MPC_new compiled) scenario_state straight_road
           (replicate 61 0%R) (replicate 78 0%R)).
  - apply wf_params_compiled.
  - simpl. lia.
  - simpl. lia.
  - apply echo_solver_contract.
  - apply MPC_new_invariant.
  - reflexivity.
  - reflexivity.
Defined.

(** * Further properties of the source *)

(** ** Reading a run backwards *)

Lemma vget_Some_lt (v : Dvector) (i : nat) (a : R) :
  vget v i = Some a → i < length v.
Proof. unfold vget. apply lookup_lt_Some. Qed.

Lemma vset_Some_inv (v v' : Dvector) (i : nat) (a : R) :
  vset v i a = Some v' → i < length v ∧ v' = <[i:=a]> v.
Proof.
  unfold vset. destruct (decide (i < length v)); [| done].
  intros [= <-]. done.
Qed.

Lemma vadd_Some_inv (v v' : Dvector) (i : nat) (a : R) :
  vadd v i a = Some v' →
  ∃ old, v !! i = Some old ∧ v' = <[i:=(old + a)%R]> v.
Proof.
  unfold vadd. intros H. apply bind_Some in H as (old & Hold & H).
  apply vset_Some_inv in H as [_ ->]. by exists old.
Qed.

(** A loop that ran to its end ran every pass, each from a state that the
    passes before it had left. *)
Lemma for_loop_Some_inv {St : Type} (Inv : St → Prop)
    (body : nat → St → option St) (n lo : nat) (s s' : St) :
  Inv s →
  (∀ i t t', lo ≤ i < lo + n → Inv t → body i t = Some t' → Inv t') →
  for_loop body lo n s = Some s' →
  Inv s' ∧ ∀ i, lo ≤ i < lo + n → ∃ t t', Inv t ∧ body i t = Some t'.
Proof.
  revert lo s. induction n as [|n IH]; intros lo s H0 Hstep Hrun; simpl in *.
  - injection Hrun as <-. split; [done | intros; lia].
  - apply bind_Some in Hrun as (t & Ht & Hrun).
    destruct (IH (S lo) t) as [Hs' Hall]; [eapply Hstep; eauto; lia | | done |].
    { intros i u u' Hi. apply Hstep. lia. }
    split; [done |]. intros i Hi.
    destruct (decide (i = lo)) as [-> |]; [by exists s, t |].
    apply Hall. lia.
Qed.

Lemma for_range_Some_inv {St : Type} (Inv : St → Prop)
    (body : nat → St → option St) (lo hi : nat) (s s' : St) :
  Inv s →
  (∀ i t t', lo ≤ i < hi → Inv t → body i t = Some t' → Inv t') →
  for_range lo hi body s = Some s' →
  Inv s' ∧ ∀ i, lo ≤ i < hi → ∃ t t', Inv t ∧ body i t = Some t'.
Proof.
  intros H0 Hstep Hrun. unfold for_range in Hrun.
  destruct (for_loop_Some_inv Inv body (hi - lo) lo s s') as [Hs' Hall];
    [done | | done |].
  - intros i t t' Hi. apply Hstep. lia.
  - split; [done |]. intros i Hi. apply Hall. lia.
Qed.

(** Turn a chain of binds that returned into its statements. *)
Ltac invert_binds H :=
  cbv zeta in H;
  repeat (apply bind_Some in H as (? & ? & H); cbv zeta in H).

Ltac invert_writes :=
  repeat match goal with
    | H : vset _ _ _ = Some _ |- _ => apply vset_Some_inv in H as [? ->]
    | H : vadd _ _ _ = Some _ |- _ =>
        apply vadd_Some_inv in H as (? & ?%lookup_lt_Some & ->)
    | H : vget _ _ = Some _ |- _ => apply vget_Some_lt in H
    end.

Section Lengths.
Variable P : Params.
Variable this : FG_eval.
Variable vars : Dvector.

Lemma cost_reference_length (i : nat) (fg fg' : Dvector) :
  cost_reference P vars i fg = Some fg' → length fg' = length fg.
Proof.
  unfold cost_reference. intros H. invert_binds H. invert_writes.
  by rewrite !length_insert.
Qed.

Lemma cost_actuators_length (i : nat) (fg fg' : Dvector) :
  cost_actuators P vars i fg = Some fg' →
  length fg' = length fg ∧ a_start P + i < length vars.
Proof.
  unfold cost_actuators. intros H. invert_binds H. invert_writes.
  by rewrite !length_insert.
Qed.

Lemma cost_gaps_length (i : nat) (fg fg' : Dvector) :
  cost_gaps P vars i fg = Some fg' → length fg' = length fg.
Proof.
  unfold cost_gaps. intros H. invert_binds H. invert_writes.
  by rewrite !length_insert.
Qed.

Lemma initial_constraints_length (fg fg' : Dvector) :
  initial_constraints P vars fg = Some fg' → length fg' = length fg.
Proof.
  unfold initial_constraints. intros H. invert_binds H. invert_writes.
  by rewrite !length_insert.
Qed.

Lemma model_constraints_length (i : nat) (fg fg' : Dvector) :
  model_constraints P this vars i fg = Some fg' →
  length fg' = length fg
  ∧ 2 + epsi_start P + i < length fg
  ∧ 4 ≤ length (coeffs this).
Proof.
  unfold model_constraints, poly3_derivative. intros H.
  invert_binds H. invert_writes.
  rewrite !length_insert in *. repeat split; [done | lia].
Qed.

(** [operator()] returns only if the three vectors are long enough. *)
Lemma FG_eval_operator_Some_sizes (fg fg' : Dvector) :
  2 ≤ N P →
  FG_eval_operator P this fg vars = Some fg' →
  n_vars P ≤ length vars
  ∧ 4 ≤ length (coeffs this)
  ∧ 1 + n_constraints P ≤ length fg.
Proof.
  intros HN H. unfold FG_eval_operator in H.
  apply bind_Some in H as (fg0 & H0 & H).
  apply bind_Some in H as (fg1 & H1 & H).
  apply bind_Some in H as (fg2 & H2 & H).
  apply bind_Some in H as (fg3 & H3 & H).
  apply bind_Some in H as (fg4 & H4 & H5).
  apply vset_Some_inv in H0 as [_ ->].
  apply (for_range_Some_inv (λ t, length t = length fg)) in H1 as [L1 _];
    [| by rewrite length_insert
     | intros i t t' _ Ht Hb; apply cost_reference_length in Hb; congruence].
  apply (for_range_Some_inv (λ t, length t = length fg)) in H2 as [L2 A2];
    [| done
     | intros i t t' _ Ht Hb; apply cost_actuators_length in Hb as [? _];
       congruence].
  apply (for_range_Some_inv (λ t, length t = length fg)) in H3 as [L3 _];
    [| done
     | intros i t t' _ Ht Hb; apply cost_gaps_length in Hb; congruence].
  apply initial_constraints_length in H4.
  apply (for_range_Some_inv (λ t, length t = length fg)) in H5 as [_ A5];
    [| congruence
     | intros i t t' _ Ht Hb; apply model_constraints_length in Hb as [? _];
       congruence].
  destruct (A2 (N P - 2)) as (t & t' & Ht & Hb); [lia |].
  apply cost_actuators_length in Hb as [_ Hvars].
  destruct (A5 (N P - 2)) as (u & u' & Hu & Hc); [lia |].
  apply model_constraints_length in Hc as (_ & Hfg & Hcoeffs).
  split; [layout; lia |]. split; [done |]. layout; lia.
Qed.
End Lengths.

(** ** The functor as a function of the decision vector *)

(** A constraint index is a block start or a later step of a block. *)
Lemma constraint_index_cases (P : Params) (j : nat) :
  1 ≤ N P → j < n_constraints P →
  (j = x_start ∨ j = y_start P ∨ j = psi_start P ∨ j = v_start P
   ∨ j = cte_start P ∨ j = epsi_start P)
  ∨ ∃ i, i < N P - 1
      ∧ (j = x_start + (i + 1) ∨ j = y_start P + (i + 1)
         ∨ j = psi_start P + (i + 1) ∨ j = v_start P + (i + 1)
         ∨ j = cte_start P + (i + 1) ∨ j = epsi_start P + (i + 1)).
Proof.
  intros HN Hj. layout.
  assert (j < N P ∨ N P ≤ j < 2 * N P ∨ 2 * N P ≤ j < 3 * N P
          ∨ 3 * N P ≤ j < 4 * N P ∨ 4 * N P ≤ j < 5 * N P
          ∨ 5 * N P ≤ j < 6 * N P) as [H | [H | [H | [H | [H | H]]]]]
    by lia.
  - destruct (decide (j = 0)); [left; lia |].
    right. exists (j - 1). lia.
  - destruct (decide (j = N P)); [left; lia |].
    right. exists (j - N P - 1). lia.
  - destruct (decide (j = 2 * N P)); [left; lia |].
    right. exists (j - 2 * N P - 1). lia.
  - destruct (decide (j = 3 * N P)); [left; lia |].
    right. exists (j - 3 * N P - 1). lia.
  - destruct (decide (j = 4 * N P)); [left; lia |].
    right. exists (j - 4 * N P - 1). lia.
  - destruct (decide (j = 5 * N P)); [left; lia |].
    right. exists (j - 5 * N P - 1). lia.
Qed.

(** Two vectors that hold the cost, the entries of time step 0 and the
    entries of every transition of the same decision vector agree on
    every entry up to the last constraint. *)
Lemma fg_entries_determined (P : Params) (coeffs vars fg1 fg2 : Dvector)
    (j : nat) :
  1 ≤ N P →
  fg1 !! 0 = Some (total_cost P vars) → fg2 !! 0 = Some (total_cost P vars) →
  initial_entries P vars fg1 → initial_entries P vars fg2 →
  (∀ i, i < N P - 1 → residuals_at P coeffs vars fg1 i) →
  (∀ i, i < N P - 1 → residuals_at P coeffs vars fg2 i) →
  j < 1 + n_constraints P →
  fg1 !! j = fg2 !! j.
Proof.
  intros HN Hc1 Hc2 Hi1 Hi2 Hr1 Hr2 Hj.
  destruct j as [|j]; [congruence |].
  destruct Hi1 as (? & ? & ? & ? & ? & ?).
  destruct Hi2 as (? & ? & ? & ? & ? & ?).
  destruct (constraint_index_cases P j HN ltac:(lia))
    as [Hcase | (i & Hi & Hcase)].
  - change (S j) with (1 + j).
    destruct Hcase as [-> | [-> | [-> | [-> | [-> | ->]]]]]; congruence.
  - destruct (Hr1 i Hi) as (? & ? & ? & ? & ? & ?).
    destruct (Hr2 i Hi) as (? & ? & ? & ? & ? & ?).
    destruct Hcase as [-> | [-> | [-> | [-> | [-> | ->]]]]].
    + replace (S (x_start + (i + 1))) with (2 + x_start + i) by lia.
      congruence.
    + replace (S (y_start P + (i + 1))) with (2 + y_start P + i) by lia.
      congruence.
    + replace (S (psi_start P + (i + 1))) with (2 + psi_start P + i) by lia.
      congruence.
    + replace (S (v_start P + (i + 1))) with (2 + v_start P + i) by lia.
      congruence.
    + replace (S (cte_start P + (i + 1))) with (2 + cte_start P + i) by lia.
      congruence.
    + replace (S (epsi_start P + (i + 1))) with (2 + epsi_start P + i)
        by lia.
      congruence.
Qed.

(** X1.  [FG_eval::operator()] runs to its end exactly when the decision
    vector has at least [n_vars] entries, the coefficient vector at least
    four, and [fg] at least [1 + n_constraints]: with anything shorter it
    indexes past the end of a vector. *)
Theorem X1_FG_eval_operator_domain
    (P : Params) (this : FG_eval) (fg vars : Dvector) :
  wf_params P →
  is_Some (FG_eval_operator P this fg vars)
  ↔ n_vars P ≤ length vars
    ∧ 4 ≤ length (coeffs this)
    ∧ 1 + n_constraints P ≤ length fg.
Proof.
  intros Hwf. pose proof Hwf as (HN & _). split.
  - intros [fg' Hrun].
    apply (FG_eval_operator_Some_sizes P this vars fg fg'); [lia | done].
  - intros (Hvars & Hcoeffs & Hfg).
    destruct (FG_eval_operator_spec P this vars Hwf Hvars Hcoeffs fg Hfg)
      as (fg' & Hrun & _).
    by exists fg'.
Qed.

Lemma X1_FG_eval_operator_domain_witness :
  is_Some (FG_eval_operator compiled (Build_FG_eval three_coeffs)
             (replicate 61 0%R) (replicate 78 0%R))
  ↔ n_vars compiled ≤ length (replicate 78 0%R)
    ∧ 4 ≤ length (coeffs (Build_FG_eval three_coeffs))
    ∧ 1 + n_constraints compiled ≤ length (replicate 61 0%R).
Proof.
  apply (X1_FG_eval_operator_domain compiled (Build_FG_eval three_coeffs)
           (replicate 61 0%R) (replicate 78 0%R)).
  apply wf_params_compiled.
Defined.

(** X2.  When [fg] has exactly [1 + n_constraints] entries, what
    [FG_eval::operator()] leaves in it does not depend on what it held
    before: every entry is overwritten, so two evaluations at the same
    decision vector give the same vector. *)
Theorem X2_FG_eval_operator_overwrites_fg
    (P : Params) (this : FG_eval) (fg1 fg2 vars : Dvector) :
  wf_params P →
  length fg1 = 1 + n_constraints P →
  length fg2 = 1 + n_constraints P →
  FG_eval_operator P this fg1 vars = FG_eval_operator P this fg2 vars.
Proof.
  intros Hwf Hl1 Hl2. pose proof Hwf as (HN & _).
  destruct (FG_eval_operator P this fg1 vars) as [fg1'|] eqn:E1.
  - destruct (FG_eval_operator_Some_sizes P this vars fg1 fg1'
                ltac:(lia) E1) as (Hvars & Hcoeffs & _).
    destruct (FG_eval_operator_spec P this vars Hwf Hvars Hcoeffs fg1)
      as (f1 & Hrun1 & Hlen1 & Hc1 & Hi1 & Hr1); [lia |].
    destruct (FG_eval_operator_spec P this vars Hwf Hvars Hcoeffs fg2)
      as (f2 & Hrun2 & Hlen2 & Hc2 & Hi2 & Hr2); [lia |].
    rewrite Hrun2. rewrite E1 in Hrun1. injection Hrun1 as <-.
    f_equal. apply list_eq. intros j.
    destruct (decide (j < 1 + n_constraints P)).
    + eapply fg_entries_determined; eauto. lia.
    + rewrite !lookup_ge_None_2; [done | lia | lia].
  - destruct (FG_eval_operator P this fg2 vars) as [fg2'|] eqn:E2; [| done].
    destruct (FG_eval_operator_Some_sizes P this vars fg2 fg2'
                ltac:(lia) E2) as (Hvars & Hcoeffs & _).
    destruct (FG_eval_operator_spec P this vars Hwf Hvars Hcoeffs fg1)
      as (f1 & Hrun1 & _); [lia |].
    congruence.
Qed.

Lemma X2_FG_eval_operator_overwrites_fg_witness :
  FG_eval_operator compiled (Build_FG_eval straight_road)
    (replicate 61 0%R) (replicate 78 1%R)
  = FG_eval_operator compiled (Build_FG_eval straight_road)
      (map stale (seq 0 61)) (replicate 78 1%R).
Proof.
  apply (X2_FG_eval_operator_overwrites_fg compiled
           (Build_FG_eval straight_road) (replicate 61 0%R)
           (map stale (seq 0 61)) (replicate 78 1%R)).
  - apply wf_params_compiled.
  - reflexivity.
  - reflexivity.
Defined.

(** ** The problem and the functor together *)

(** X3.  For the problem that [Solve] builds, a decision vector meets the
    constraint bounds (output [j] of the functor between lower and upper
    bound [j]) exactly when its time step 0 is the supplied state and every
    transition satisfies the six model equations. *)
Theorem X3_feasible_iff_starts_at_state_and_follows_model
    (P : Params) (max_delta : R) (uninitialized : nat → R) (this : MPC)
    (state coeffs fg vars : Dvector) :
  wf_params P →
  6 ≤ length state →
  n_vars P ≤ length vars →
  4 ≤ length coeffs →
  1 + n_constraints P ≤ length fg →
  ∃ pb fg',
    Solve_problem P max_delta uninitialized this state coeffs = Some pb
    ∧ FG_eval_operator P (pb_fg_eval pb) fg vars = Some fg'
    ∧ (satisfies_constraints P pb fg'
       ↔ starts_at_state P state vars ∧ satisfies_model P vars coeffs).
Proof.
  intros Hwf Hstate Hvars Hcoeffs Hfg. pose proof Hwf as (HN & _).
  destruct (Solve_problem_spec P max_delta uninitialized this state coeffs
              Hwf Hstate)
    as (pb & Hpb & Heval & _ & _ & (_ & Plo & Zlo) & (_ & Pup & Zup)).
  destruct (FG_eval_operator_spec P (pb_fg_eval pb) vars Hwf Hvars)
    with (fg := fg) as (fg' & Hrun & _ & _ & Hinit & Hres);
    [by rewrite Heval | done |].
  rewrite Heval in Hres. simpl in Hres.
  exists pb, fg'. split; [done |]. split; [done |].
  destruct Hinit as (Ix & Iy & Ipsi & Iv & Icte & Iepsi).
  destruct Plo as (Lx & Ly & Lpsi & Lv & Lcte & Lepsi).
  destruct Pup as (Ux & Uy & Upsi & Uv & Ucte & Uepsi).
  split.
  - intros Hsat. split.
    + unfold starts_at_state. repeat split.
      * destruct (Hsat x_start) as (g & lo & up & Hg & Hl & Hu & Hle);
          [layout; lia |].
        assert (g = x_at vars 0) by congruence.
        assert (lo = state !!! 0) by congruence.
        assert (up = state !!! 0) by congruence. lra.
      * destruct (Hsat (y_start P)) as (g & lo & up & Hg & Hl & Hu & Hle);
          [layout; lia |].
        assert (g = y_at P vars 0) by congruence.
        assert (lo = state !!! 1) by congruence.
        assert (up = state !!! 1) by congruence. lra.
      * destruct (Hsat (psi_start P)) as (g & lo & up & Hg & Hl & Hu & Hle);
          [layout; lia |].
        assert (g = psi_at P vars 0) by congruence.
        assert (lo = state !!! 2) by congruence.
        assert (up = state !!! 2) by congruence. lra.
      * destruct (Hsat (v_start P)) as (g & lo & up & Hg & Hl & Hu & Hle);
          [layout; lia |].
        assert (g = v_at P vars 0) by congruence.
        assert (lo = state !!! 3) by congruence.
        assert (up = state !!! 3) by congruence. lra.
      * destruct (Hsat (cte_start P)) as (g & lo & up & Hg & Hl & Hu & Hle);
          [layout; lia |].
        assert (g = cte_at P vars 0) by congruence.
        assert (lo = state !!! 4) by congruence.
        assert (up = state !!! 4) by congruence. lra.
      * destruct (Hsat (epsi_start P))
          as (g & lo & up & Hg & Hl & Hu & Hle); [layout; lia |].
        assert (g = epsi_at P vars 0) by congruence.
        assert (lo = state !!! 5) by congruence.
        assert (up = state !!! 5) by congruence. lra.
    + intros i Hi.
      destruct (Hres i Hi) as (Rx & Ry & Rpsi & Rv & Rcte & Repsi).
      repeat split.
      * destruct (Hsat (x_start + (i + 1)))
          as (g & lo & up & Hg & Hl & Hu & Hle); [layout; lia |].
        replace (1 + (x_start + (i + 1))) with (2 + x_start + i) in Hg
          by lia.
        rewrite Zlo in Hl by (layout; lia).
        rewrite Zup in Hu by (layout; lia).
        assert (g = (x_at vars (i + 1) - predicted_x P vars i)%R)
          by congruence.
        assert (lo = 0%R) by congruence.
        assert (up = 0%R) by congruence. lra.
      * destruct (Hsat (y_start P + (i + 1)))
          as (g & lo & up & Hg & Hl & Hu & Hle); [layout; lia |].
        replace (1 + (y_start P + (i + 1))) with (2 + y_start P + i) in Hg
          by lia.
        rewrite Zlo in Hl by (layout; lia).
        rewrite Zup in Hu by (layout; lia).
        assert (g = (y_at P vars (i + 1) - predicted_y P vars i)%R)
          by congruence.
        assert (lo = 0%R) by congruence.
        assert (up = 0%R) by congruence. lra.
      * destruct (Hsat (psi_start P + (i + 1)))
          as (g & lo & up & Hg & Hl & Hu & Hle); [layout; lia |].
        replace (1 + (psi_start P + (i + 1))) with (2 + psi_start P + i)
          in Hg by lia.
        rewrite Zlo in Hl by (layout; lia).
        rewrite Zup in Hu by (layout; lia).
        assert (g = (psi_at P vars (i + 1) - predicted_psi P vars i)%R)
          by congruence.
        assert (lo = 0%R) by congruence.
        assert (up = 0%R) by congruence. lra.
      * destruct (Hsat (v_start P + (i + 1)))
          as (g & lo & up & Hg & Hl & Hu & Hle); [layout; lia |].
        replace (1 + (v_start P + (i + 1))) with (2 + v_start P + i) in Hg
          by lia.
        rewrite Zlo in Hl by (layout; lia).
        rewrite Zup in Hu by (layout; lia).
        assert (g = (v_at P vars (i + 1) - predicted_v P vars i)%R)
          by congruence.
        assert (lo = 0%R) by congruence.
        assert (up = 0%R) by congruence. lra.
      * destruct (Hsat (cte_start P + (i + 1)))
          as (g & lo & up & Hg & Hl & Hu & Hle); [layout; lia |].
        replace (1 + (cte_start P + (i + 1))) with (2 + cte_start P + i)
          in Hg by lia.
        rewrite Zlo in Hl by (layout; lia).
        rewrite Zup in Hu by (layout; lia).
        assert (g = (cte_at P vars (i + 1)
                     - predicted_cte P vars coeffs i)%R) by congruence.
        assert (lo = 0%R) by congruence.
        assert (up = 0%R) by congruence. lra.
      * destruct (Hsat (epsi_start P + (i + 1)))
          as (g & lo & up & Hg & Hl & Hu & Hle); [layout; lia |].
        replace (1 + (epsi_start P + (i + 1))) with (2 + epsi_start P + i)
          in Hg by lia.
        rewrite Zlo in Hl by (layout; lia).
        rewrite Zup in Hu by (layout; lia).
        assert (g = (epsi_at P vars (i + 1)
                     - predicted_epsi P vars coeffs i)%R) by congruence.
        assert (lo = 0%R) by congruence.
        assert (up = 0%R) by congruence. lra.
  - intros [(Sx & Sy & Spsi & Sv & Scte & Sepsi) Hmodel] j Hj.
    destruct (constraint_index_cases P j ltac:(lia) Hj)
      as [Hcase | (i & Hi & Hcase)].
    + destruct Hcase as [-> | [-> | [-> | [-> | [-> | ->]]]]];
        eexists _, _, _; (split; [eassumption |]);
        (split; [eassumption |]); (split; [eassumption |]); lra.
    + destruct (Hres i Hi) as (Rx & Ry & Rpsi & Rv & Rcte & Repsi).
      destruct (Hmodel i Hi) as (Mx & My & Mpsi & Mv & Mcte & Mepsi).
      rewrite Zlo, Zup by (layout; lia).
      exists 0%R, 0%R, 0%R.
      split; [| split; [done | split; [done | lra]]].
      destruct Hcase as [-> | [-> | [-> | [-> | [-> | ->]]]]].
      * replace (1 + (x_start + (i + 1))) with (2 + x_start + i) by lia.
        rewrite Rx, Mx. f_equal. lra.
      * replace (1 + (y_start P + (i + 1))) with (2 + y_start P + i) by lia.
        rewrite Ry, My. f_equal. lra.
      * replace (1 + (psi_start P + (i + 1))) with (2 + psi_start P + i)
          by lia.
        rewrite Rpsi, Mpsi. f_equal. lra.
      * replace (1 + (v_start P + (i + 1))) with (2 + v_start P + i) by lia.
        rewrite Rv, Mv. f_equal. lra.
      * replace (1 + (cte_start P + (i + 1))) with (2 + cte_start P + i)
          by lia.
        rewrite Rcte, Mcte. f_equal. lra.
      * replace (1 + (epsi_start P + (i + 1))) with (2 + epsi_start P + i)
          by lia.
        rewrite Repsi, Mepsi. f_equal. lra.
Qed.

Lemma X3_feasible_iff_starts_at_state_and_follows_model_witness :
  ∃ pb fg',
    Solve_problem compiled 0.436332 stale driving_MPC scenario_state
      straight_road = Some pb
    ∧ FG_eval_operator compiled (pb_fg_eval pb) (replicate 61 0%R) cruising
      = Some fg'
    ∧ (satisfies_constraints compiled pb fg'
       ↔ starts_at_state compiled scenario_state cruising
         ∧ satisfies_model compiled cruising straight_road).
Proof.
  apply (X3_feasible_iff_starts_at_state_and_follows_model compiled
           0.436332 stale driving_MPC scenario_state straight_road
           (replicate 61 0%R) cruising).
  - apply wf_params_compiled.
  - simpl. lia.
  - reflexivity.
  - simpl. lia.
  - simpl. vm_compute. lia.
Defined.

(** ** The cost as an objective *)

Lemma sum_below_nonneg (f : nat → R) (n : nat) :
  (∀ i, i < n → (0 <= f i)%R) → (0 <= sum_below f n)%R.
Proof.
  induction n as [|n IH]; intros Hf; simpl; [lra |].
  specialize (IH ltac:(intros; apply Hf; lia)).
  specialize (Hf n ltac:(lia)). lra.
Qed.

Lemma sum_below_zero (f : nat → R) (n : nat) :
  (∀ i, i < n → (0 <= f i)%R) →
  sum_below f n = 0%R ↔ ∀ i, i < n → f i = 0%R.
Proof.
  induction n as [|n IH]; intros Hf; simpl.
  - split; [intros; lia | done].
  - pose proof (sum_below_nonneg f n ltac:(intros; apply Hf; lia)) as Hs.
    pose proof (Hf n ltac:(lia)) as Hn.
    specialize (IH ltac:(intros; apply Hf; lia)).
    split.
    + intros H i Hi. destruct (decide (i = n)) as [-> |]; [lra |].
      apply IH; [lra | lia].
    + intros H. rewrite (proj2 IH) by (intros; apply H; lia).
      rewrite (H n) by lia. lra.
Qed.

Lemma weighted_square_nonneg (w a : R) : (0 <= w → 0 <= w * a ^ 2)%R.
Proof. intros Hw. apply Rmult_le_pos; [done | apply pow2_ge_0]. Qed.

Lemma weighted_squares_zero (w1 w2 a b : R) :
  (0 < w1 → 0 < w2 → w1 * a ^ 2 + w2 * b ^ 2 = 0 → a = 0 ∧ b = 0)%R.
Proof.
  intros H1 H2 H.
  pose proof (pow2_ge_0 a). pose proof (pow2_ge_0 b).
  assert (a ^ 2 = 0 ∧ b ^ 2 = 0)%R as [Ha Hb] by nra.
  split; nra.
Qed.

Section Objective.
Variable P : Params.
Variable vars : Dvector.
Hypothesis Hpos : weights_pos P.

Lemma tracking_cost_nonneg (i : nat) : (0 <= tracking_cost P vars i)%R.
Proof.
  destruct Hpos as (? & ? & ? & _). unfold tracking_cost.
  pose proof (weighted_square_nonneg (coeff_cte P) (cte_at P vars i - 0)).
  pose proof (weighted_square_nonneg (coeff_epsi P) (epsi_at P vars i - 0)).
  pose proof (weighted_square_nonneg (coeff_v P)
                (v_at P vars i - ref_v P)).
  lra.
Qed.

Lemma magnitude_cost_nonneg (i : nat) : (0 <= magnitude_cost P vars i)%R.
Proof.
  destruct Hpos as (_ & _ & _ & ? & ? & _). unfold magnitude_cost.
  pose proof (weighted_square_nonneg (coeff_penalize_delta P)
                (delta_at P vars i)).
  pose proof (weighted_square_nonneg (coeff_penalize_a P) (a_at P vars i)).
  lra.
Qed.

Lemma smoothness_cost_nonneg (i : nat) : (0 <= smoothness_cost P vars i)%R.
Proof.
  destruct Hpos as (_ & _ & _ & _ & _ & ? & ?). unfold smoothness_cost.
  pose proof (weighted_square_nonneg (coeff_derivative_delta P)
                (delta_at P vars (i + 1) - delta_at P vars i)).
  pose proof (weighted_square_nonneg (coeff_derivative_a P)
                (a_at P vars (i + 1) - a_at P vars i)).
  lra.
Qed.

Lemma tracking_cost_zero (i : nat) :
  tracking_cost P vars i = 0%R
  ↔ cte_at P vars i = 0%R ∧ epsi_at P vars i = 0%R
    ∧ v_at P vars i = ref_v P.
Proof.
  destruct Hpos as (Hc & He & Hv & _). unfold tracking_cost. split.
  - intros H.
    pose proof (pow2_ge_0 (cte_at P vars i - 0)).
    pose proof (pow2_ge_0 (epsi_at P vars i - 0)).
    pose proof (pow2_ge_0 (v_at P vars i - ref_v P)).
    assert ((cte_at P vars i - 0) ^ 2 = 0
            ∧ (epsi_at P vars i - 0) ^ 2 = 0
            ∧ (v_at P vars i - ref_v P) ^ 2 = 0)%R as (A & B & C) by nra.
    repeat split; nra.
  - intros (-> & -> & ->). lra.
Qed.

Lemma magnitude_cost_zero (i : nat) :
  magnitude_cost P vars i = 0%R
  ↔ delta_at P vars i = 0%R ∧ a_at P vars i = 0%R.
Proof.
  destruct Hpos as (_ & _ & _ & Hd & Ha & _). unfold magnitude_cost. split.
  - by apply weighted_squares_zero.
  - intros (-> & ->). lra.
Qed.

Lemma total_cost_nonneg : (0 <= total_cost P vars)%R.
Proof.
  unfold total_cost.
  pose proof (sum_below_nonneg (tracking_cost P vars) (N P)
                ltac:(intros; apply tracking_cost_nonneg)).
  pose proof (sum_below_nonneg (magnitude_cost P vars) (N P - 1)
                ltac:(intros; apply magnitude_cost_nonneg)).
  pose proof (sum_below_nonneg (smoothness_cost P vars) (N P - 2)
                ltac:(intros; apply smoothness_cost_nonneg)).
  lra.
Qed.

Lemma total_cost_zero : total_cost P vars = 0%R ↔ on_reference P vars.
Proof.
  unfold total_cost.
  pose proof (sum_below_nonneg (tracking_cost P vars) (N P)
                ltac:(intros; apply tracking_cost_nonneg)) as H1.
  pose proof (sum_below_nonneg (magnitude_cost P vars) (N P - 1)
                ltac:(intros; apply magnitude_cost_nonneg)) as H2.
  pose proof (sum_below_nonneg (smoothness_cost P vars) (N P - 2)
                ltac:(intros; apply smoothness_cost_nonneg)) as H3.
  split.
  - intros H.
    assert (sum_below (tracking_cost P vars) (N P) = 0%R) as Z1 by lra.
    assert (sum_below (magnitude_cost P vars) (N P - 1) = 0%R) as Z2 by lra.
    split.
    + intros i Hi. apply tracking_cost_zero.
      by apply (sum_below_zero (tracking_cost P vars) (N P));
        [intros; apply tracking_cost_nonneg | |].
    + intros i Hi. apply magnitude_cost_zero.
      by apply (sum_below_zero (magnitude_cost P vars) (N P - 1));
        [intros; apply magnitude_cost_nonneg | |].
  - intros [Ht Hm].
    rewrite (proj2 (sum_below_zero (tracking_cost P vars) (N P)
                      ltac:(intros; apply tracking_cost_nonneg)))
      by (intros; by apply tracking_cost_zero, Ht).
    rewrite (proj2 (sum_below_zero (magnitude_cost P vars) (N P - 1)
                      ltac:(intros; apply magnitude_cost_nonneg)))
      by (intros; by apply magnitude_cost_zero, Hm).
    rewrite (proj2 (sum_below_zero (smoothness_cost P vars) (N P - 2)
                      ltac:(intros; apply smoothness_cost_nonneg))); [lra |].
    intros i Hi. unfold smoothness_cost.
    destruct (Hm i ltac:(lia)) as [-> ->].
    destruct (Hm (i + 1) ltac:(lia)) as [-> ->]. lra.
Qed.
End Objective.

Lemma weights_pos_profile (P : Params) : is_profile P → weights_pos P.
Proof.
  intros [-> | [-> | ->]]; unfold weights_pos; simpl; lra.
Qed.

(** X4.  With the weights of any profile (the five tracking and magnitude
    weights positive, the two smoothness weights non-negative) the cost in
    [fg[0]] is never negative, and it is zero exactly for a decision vector
    with [cte = 0], [epsi = 0] and [v = ref_v] at every step and
    [delta = 0], [a = 0] at every transition. *)
Theorem X4_cost_nonnegative_and_zero_on_reference
    (P : Params) (this : FG_eval) (fg vars : Dvector) :
  wf_params P → weights_pos P →
  n_vars P ≤ length vars →
  4 ≤ length (coeffs this) →
  1 + n_constraints P ≤ length fg →
  ∃ fg' cost,
    FG_eval_operator P this fg vars = Some fg'
    ∧ fg' !! 0 = Some cost
    ∧ (0 <= cost)%R
    ∧ (cost = 0%R ↔ on_reference P vars).
Proof.
  intros Hwf Hpos Hvars Hcoeffs Hfg.
  destruct (FG_eval_operator_spec P this vars Hwf Hvars Hcoeffs fg Hfg)
    as (fg' & Hrun & _ & Hcost & _).
  exists fg', (total_cost P vars). split; [done |]. split; [done |].
  split; [by apply total_cost_nonneg | by apply total_cost_zero].
Qed.

Lemma X4_cost_nonnegative_and_zero_on_reference_witness :
  ∃ fg' cost,
    FG_eval_operator compiled (Build_FG_eval straight_road)
      (replicate 61 0%R) cruising = Some fg'
    ∧ fg' !! 0 = Some cost
    ∧ (0 <= cost)%R
    ∧ (cost = 0%R ↔ on_reference compiled cruising).
Proof.
  apply (X4_cost_nonnegative_and_zero_on_reference compiled
           (Build_FG_eval straight_road) (replicate 61 0%R) cruising).
  - apply wf_params_compiled.
  - apply weights_pos_profile. by left.
  - reflexivity.
  - simpl. lia.
  - simpl. vm_compute. lia.
Defined.

Example cruising_on_reference : on_reference compiled cruising.
Proof.
  split; intros i Hi; change (N compiled) with 10 in Hi.
  - do 10 (destruct i as [|i]; [repeat split; reflexivity |]). lia.
  - do 9 (destruct i as [|i]; [repeat split; reflexivity |]). simpl in Hi. lia.
Qed.

(** ** The variable bounds *)

(** The bounds by region, and their order. *)
Lemma vars_bounds_at_regions
    (P : Params) (max_delta : R) (this : MPC) (j : nat) :
  wf_params P → (0 <= max_delta)%R → j < n_vars P →
  ((vars_bounds_at P max_delta this j).1
   <= (vars_bounds_at P max_delta this j).2)%R
  ∧ (j < delta_start P →
     vars_bounds_at P max_delta this j = (-1.0e19, 1.0e19)%R)
  ∧ (delta_start P ≤ j < delta_start P + num_states_in_latency P →
     vars_bounds_at P max_delta this j
     = (steering_delta_ this, steering_delta_ this))
  ∧ (delta_start P + num_states_in_latency P ≤ j < a_start P →
     vars_bounds_at P max_delta this j = (- max_delta, max_delta)%R)
  ∧ (a_start P ≤ j < a_start P + num_states_in_latency P →
     vars_bounds_at P max_delta this j = (a_ this, a_ this))
  ∧ (a_start P + num_states_in_latency P ≤ j →
     vars_bounds_at P max_delta this j = (-1.0, 1.0)%R).
Proof.
  intros (HN & _ & HL) Hmd Hj. unfold vars_bounds_at.
  repeat case_decide; simpl;
    (split; [lra |]); repeat split; intros; (done || (layout; lia)).
Qed.

(** X5.  The variable bounds that [Solve] hands to the solver are, outside
    the latency slots, [-1e19, 1e19] for every state variable,
    [-max_delta, max_delta] for every steering slot and [-1, 1] for every
    acceleration slot; and when [max_delta] is not negative no lower bound
    exceeds its upper bound. *)
Theorem X5_variable_bounds_by_region
    (P : Params) (max_delta : R) (uninitialized : nat → R) (this : MPC)
    (state coeffs : Dvector) :
  wf_params P → 6 ≤ length state → (0 <= max_delta)%R →
  ∃ pb,
    Solve_problem P max_delta uninitialized this state coeffs = Some pb
    ∧ ∀ j, j < n_vars P →
        ∃ lo up,
          pb_vars_lowerbound pb !! j = Some lo
          ∧ pb_vars_upperbound pb !! j = Some up
          ∧ (lo <= up)%R
          ∧ (j < delta_start P → lo = (-1.0e19)%R ∧ up = 1.0e19%R)
          ∧ (delta_start P + num_states_in_latency P ≤ j < a_start P →
             lo = (- max_delta)%R ∧ up = max_delta)
          ∧ (a_start P + num_states_in_latency P ≤ j →
             lo = (-1.0)%R ∧ up = 1.0%R).
Proof.
  intros Hwf Hstate Hmd.
  destruct (Solve_problem_spec P max_delta uninitialized this state coeffs
              Hwf Hstate) as (pb & Hpb & _ & _ & (_ & _ & Hb) & _).
  exists pb. split; [done |]. intros j Hj.
  destruct (Hb j Hj) as [Hlo Hup].
  destruct (vars_bounds_at_regions P max_delta this j Hwf Hmd Hj)
    as (Hle & Hstate_vars & _ & Hsteer & _ & Hacc).
  eexists _, _. split; [exact Hlo |]. split; [exact Hup |].
  split; [done |]. split; [| split].
  - intros H. by rewrite (Hstate_vars H).
  - intros H. by rewrite (Hsteer H).
  - intros H. by rewrite (Hacc H).
Qed.

Lemma X5_variable_bounds_by_region_witness :
  ∃ pb,
    Solve_problem compiled 0.436332 stale driving_MPC scenario_state
      straight_road = Some pb
    ∧ ∀ j, j < n_vars compiled →
        ∃ lo up,
          pb_vars_lowerbound pb !! j = Some lo
          ∧ pb_vars_upperbound pb !! j = Some up
          ∧ (lo <= up)%R
          ∧ (j < delta_start compiled → lo = (-1.0e19)%R ∧ up = 1.0e19%R)
          ∧ (delta_start compiled + num_states_in_latency compiled ≤ j
             < a_start compiled →
             lo = (- (0.436332))%R ∧ up = 0.436332%R)
          ∧ (a_start compiled + num_states_in_latency compiled ≤ j →
             lo = (-1.0)%R ∧ up = 1.0%R).
Proof.
  apply (X5_variable_bounds_by_region compiled 0.436332 stale driving_MPC
           scenario_state straight_road).
  - apply wf_params_compiled.
  - simpl. lia.
  - lra.
Defined.

(** X6.  The initial guess is zero at every actuation slot, also at the
    slots whose bounds [Solve] collapses to the retained command: when
    there is at least one latency step and the retained steering or
    acceleration is not zero, the initial guess handed to the solver lies
    outside the variable bounds handed to it. *)
Theorem X6_initial_guess_outside_held_bounds
    (P : Params) (max_delta : R) (uninitialized : nat → R) (this : MPC)
    (state coeffs : Dvector) :
  wf_params P → 6 ≤ length state →
  1 ≤ num_states_in_latency P →
  steering_delta_ this ≠ 0%R ∨ a_ this ≠ 0%R →
  ∃ pb,
    Solve_problem P max_delta uninitialized this state coeffs = Some pb
    ∧ pb_vars pb !! delta_start P = Some 0%R
    ∧ pb_vars pb !! a_start P = Some 0%R
    ∧ ¬ within_bounds P pb (pb_vars pb).
Proof.
  intros Hwf Hstate HL1 Hne. pose proof Hwf as (HN & _ & HL).
  destruct (Solve_problem_spec P max_delta uninitialized this state coeffs
              Hwf Hstate)
    as (pb & Hpb & _ & (_ & _ & Hzero) & (_ & _ & Hb) & _).
  assert (pb_vars pb !! delta_start P = Some 0%R) as Hd
    by (apply Hzero; layout; lia).
  assert (pb_vars pb !! a_start P = Some 0%R) as Ha
    by (apply Hzero; layout; lia).
  exists pb. split; [done |]. split; [done |]. split; [done |].
  intros Hin.
  destruct (Hb (delta_start P)) as [Hdlo Hdup]; [layout; lia |].
  destruct (Hb (a_start P)) as [Halo Haup]; [layout; lia |].
  unfold vars_bounds_at in Hdlo, Hdup, Halo, Haup.
  rewrite decide_False, decide_True in Hdlo, Hdup by lia.
  rewrite !(decide_False (P:=a_start P < delta_start P)) in Halo, Haup
    by (layout; lia).
  rewrite !(decide_False
              (P:=a_start P < delta_start P + num_states_in_latency P))
    in Halo, Haup by (layout; lia).
  rewrite decide_False, decide_True in Halo, Haup by lia.
  simpl in Hdlo, Hdup, Halo, Haup.
  destruct (Hin (delta_start P)) as (v & lo & up & Hv & Hlo & Hup & Hle);
    [layout; lia |].
  destruct (Hin (a_start P)) as (v' & lo' & up' & Hv' & Hlo' & Hup' & Hle');
    [layout; lia |].
  assert (v = 0%R) by congruence.
  assert (lo = steering_delta_ this) by congruence.
  assert (up = steering_delta_ this) by congruence.
  assert (v' = 0%R) by congruence.
  assert (lo' = a_ this) by congruence.
  assert (up' = a_ this) by congruence.
  destruct Hne as [Hne | Hne]; apply Hne; lra.
Qed.

Lemma X6_initial_guess_outside_held_bounds_witness :
  ∃ pb,
    Solve_problem compiled 0.436332 stale driving_MPC scenario_state
      straight_road = Some pb
    ∧ pb_vars pb !! delta_start compiled = Some 0%R
    ∧ pb_vars pb !! a_start compiled = Some 0%R
    ∧ ¬ within_bounds compiled pb (pb_vars pb).
Proof.
  apply (X6_initial_guess_outside_held_bounds compiled 0.436332 stale
           driving_MPC scenario_state straight_road).
  - apply wf_params_compiled.
  - simpl. lia.
  - unfold compiled. rewrite num_states_in_latency_72MPH. lia.
  - left. simpl. lra.
Defined.

(** ** What [Solve] returns and when *)

(** X7.  The first six elements of the vector returned by [Solve] are the
    solved state at time step 1, and the first point of the predicted path
    that [Solve] stores is the returned position: [pred_path_x_[0]] is the
    returned [x] and [pred_path_y_[0]] the returned [y]. *)
Theorem X7_returned_state_is_first_path_point
    (P : Params) (max_delta : R) (uninitialized : nat → R)
    (ipopt_solve : Problem → solve_result) (this : MPC)
    (state coeffs : Dvector) :
  wf_params P → 6 ≤ length state →
  solver_contract ipopt_solve → MPC_invariant P this →
  ∃ pb out,
    Solve_problem P max_delta uninitialized this state coeffs = Some pb
    ∧ Solve P max_delta uninitialized ipopt_solve this state coeffs = Some out
    ∧ returned out !! 0 = Some (x (ipopt_solve pb) !!! (x_start + 1))
    ∧ returned out !! 1 = Some (x (ipopt_solve pb) !!! (y_start P + 1))
    ∧ returned out !! 2 = Some (x (ipopt_solve pb) !!! (psi_start P + 1))
    ∧ returned out !! 3 = Some (x (ipopt_solve pb) !!! (v_start P + 1))
    ∧ returned out !! 4 = Some (x (ipopt_solve pb) !!! (cte_start P + 1))
    ∧ returned out !! 5 = Some (x (ipopt_solve pb) !!! (epsi_start P + 1))
    ∧ pred_path_x_ (mpc_after out) !! 0 = returned out !! 0
    ∧ pred_path_y_ (mpc_after out) !! 0 = returned out !! 1.
Proof.
  intros Hwf Hstate Hsolver [Hpx Hpy]. pose proof Hwf as (HN & _).
  destruct (Solve_runs P max_delta uninitialized ipopt_solve this state
              coeffs Hwf Hstate Hsolver (conj Hpx Hpy))
    as (pb & out & Hpb & Hext & Hrun & Hlen).
  destruct (Solve_extract_spec P this (ipopt_solve pb) Hwf
              ltac:(lia) Hpx Hpy)
    as (out' & Hout' & _ & _ & (_ & _ & Hpath) & Hret & _).
  assert (out' = out) as -> by congruence.
  destruct (Hpath 0) as [Hx0 Hy0]; [lia |].
  exists pb, out. rewrite Hret, Hx0, Hy0. by repeat split.
Qed.

Lemma X7_returned_state_is_first_path_point_witness :
  ∃ pb out,
    Solve_problem compiled 0.436332 stale driving_MPC scenario_state
      straight_road = Some pb
    ∧ Solve compiled 0.436332 stale ramp_solver driving_MPC scenario_state
        straight_road = Some out
    ∧ returned out !! 0 = Some (x (ramp_solver pb) !!! (x_start + 1))
    ∧ returned out !! 1
      = Some (x (ramp_solver pb) !!! (y_start compiled + 1))
    ∧ returned out !! 2
      = Some (x (ramp_solver pb) !!! (psi_start compiled + 1))
    ∧ returned out !! 3
      = Some (x (ramp_solver pb) !!! (v_start compiled + 1))
    ∧ returned out !! 4
      = Some (x (ramp_solver pb) !!! (cte_start compiled + 1))
    ∧ returned out !! 5
      = Some (x (ramp_solver pb) !!! (epsi_start compiled + 1))
    ∧ pred_path_x_ (mpc_after out) !! 0 = returned out !! 0
    ∧ pred_path_y_ (mpc_after out) !! 0 = returned out !! 1.
Proof.
  apply (X7_returned_state_is_first_path_point compiled 0.436332 stale
           ramp_solver driving_MPC scenario_state straight_road).
  - apply wf_params_compiled.
  - simpl. lia.
  - apply ramp_solver_contract.
  - split; reflexivity.
Defined.

Lemma copy_pred_path_length (P : Params) (solution : solve_result)
    (i : nat) (t t' : list R * list R) :
  copy_pred_path P solution i t = Some t' →
  length t'.1 = length t.1 ∧ length t'.2 = length t.2
  ∧ i - 1 < length t.1 ∧ i - 1 < length t.2.
Proof.
  unfold copy_pred_path. intros H. invert_binds H. invert_writes.
  injection H as <-. simpl. by rewrite !length_insert.
Qed.

(** The extraction runs with a solution and buffers that are long enough,
    whatever more they hold. *)
Lemma Solve_extract_runs (P : Params) (this : MPC) (solution : solve_result) :
  wf_params P →
  a_start P + 1 < length (x solution) →
  a_start P + num_states_in_latency P < length (x solution) →
  N P - 1 ≤ length (pred_path_x_ this) →
  N P - 1 ≤ length (pred_path_y_ this) →
  is_Some (Solve_extract P this solution).
Proof.
  intros (HN & _ & HL) H1 H2 Hpx Hpy. unfold Solve_extract. cbv zeta.
  run_read. run_read.
  destruct (for_range_invariant
              (λ (i : nat) (t : list R * list R),
                 length t.1 = length (pred_path_x_ this)
                 ∧ length t.2 = length (pred_path_y_ this))
              (copy_pred_path P solution) 1 (N P)
              (pred_path_x_ this, pred_path_y_ this))
    as (path & -> & _).
  - lia.
  - done.
  - intros i [t1 t2] Hi [Ht1 Ht2]. simpl in *.
    unfold copy_pred_path. simpl.
    run_read. run_write. run_read. run_write.
    eexists. split; [done |]. simpl. by rewrite !length_insert.
  - run_bind. repeat run_read. by eexists.
Qed.

(** X8.  Given the solver's answer, the second half of [Solve] runs to its
    end exactly when the solution vector reaches index [a_start + 1] and
    index [a_start + num_states_in_latency], and each of the two path
    buffers has at least [N - 1] entries; in particular it reads past the
    end of an empty solution vector. *)
Theorem X8_Solve_extract_domain
    (P : Params) (this : MPC) (solution : solve_result) :
  wf_params P →
  is_Some (Solve_extract P this solution)
  ↔ a_start P + 1 < length (x solution)
    ∧ a_start P + num_states_in_latency P < length (x solution)
    ∧ N P - 1 ≤ length (pred_path_x_ this)
    ∧ N P - 1 ≤ length (pred_path_y_ this).
Proof.
  intros Hwf. pose proof Hwf as (HN & _ & HL). split.
  - intros [out H]. unfold Solve_extract in H. cbv zeta in H.
    apply bind_Some in H as (sd & Hsd & H).
    apply bind_Some in H as (a & Ha & H).
    apply bind_Some in H as (path & Hpath & H).
    invert_binds H. invert_writes.
    apply (for_range_Some_inv
             (λ t, length t.1 = length (pred_path_x_ this)
                   ∧ length t.2 = length (pred_path_y_ this)))
      in Hpath as [_ Hall].
    + destruct (Hall (N P - 1)) as (t & t' & [Ht1 Ht2] & Hb); [lia |].
      apply copy_pred_path_length in Hb as (_ & _ & Hb1 & Hb2).
      repeat split; lia.
    + done.
    + intros i t t' _ [Ht1 Ht2] Hb.
      apply copy_pred_path_length in Hb as (? & ? & _). split; congruence.
  - intros (H1 & H2 & Hpx & Hpy). by apply Solve_extract_runs.
Qed.

Lemma X8_Solve_extract_domain_witness :
  is_Some (Solve_extract compiled driving_MPC
             {| status := not_success 0; x := []; obj_value := 0 |})
  ↔ a_start compiled + 1 < length ([] : Dvector)
    ∧ a_start compiled + num_states_in_latency compiled
      < length ([] : Dvector)
    ∧ N compiled - 1 ≤ length (pred_path_x_ driving_MPC)
    ∧ N compiled - 1 ≤ length (pred_path_y_ driving_MPC).
Proof.
  apply (X8_Solve_extract_domain compiled driving_MPC
           {| status := not_success 0; x := []; obj_value := 0 |}).
  apply wf_params_compiled.
Defined.

(** X9.  The first half of [Solve] runs to its end exactly when the state
    has at least six components: nothing else in the construction of the
    problem can index past the end of a vector, whatever the coefficients
    and the retained command are. *)
Theorem X9_Solve_problem_domain
    (P : Params) (max_delta : R) (uninitialized : nat → R) (this : MPC)
    (state coeffs : Dvector) :
  wf_params P →
  is_Some (Solve_problem P max_delta uninitialized this state coeffs)
  ↔ 6 ≤ length state.
Proof.
  intros Hwf. split.
  - intros [pb H]. unfold Solve_problem in H. cbv zeta in H.
    do 6 (apply bind_Some in H as (? & ?%vget_Some_lt & H)). lia.
  - intros Hstate.
    destruct (Solve_problem_spec P max_delta uninitialized this state coeffs
                Hwf Hstate) as (pb & Hpb & _).
    by exists pb.
Qed.

Lemma X9_Solve_problem_domain_witness :
  is_Some (Solve_problem compiled 0.436332 stale driving_MPC
             [0; 0; 0; 40; 0]%R three_coeffs)
  ↔ 6 ≤ length [0; 0; 0; 40; 0]%R.
Proof.
  apply (X9_Solve_problem_domain compiled 0.436332 stale driving_MPC
           [0; 0; 0; 40; 0]%R three_coeffs).
  apply wf_params_compiled.
Defined.

(** ** One call after another *)

Lemma vars_bounds_at_latency
    (P : Params) (max_delta : R) (this : MPC) (i : nat) :
  wf_params P → i < num_states_in_latency P →
  vars_bounds_at P max_delta this (delta_start P + i)
  = (steering_delta_ this, steering_delta_ this)
  ∧ vars_bounds_at P max_delta this (a_start P + i) = (a_ this, a_ this).
Proof.
  intros (HN & _ & HL) Hi. unfold vars_bounds_at. split.
  - rewrite decide_False, decide_True by lia. done.
  - rewrite !(decide_False (P:=a_start P + i < delta_start P))
      by (layout; lia).
    rewrite !(decide_False
                (P:=a_start P + i
                    < delta_start P + num_states_in_latency P))
      by (layout; lia).
    rewrite decide_False, decide_True by lia. done.
Qed.

(** X10.  After a call of [Solve] the object satisfies what the
    constructor established, so the next call runs as well; and in the
    problem the next call builds, both variable bounds of every latency
    slot are the entries of the first call's solution at index
    [num_states_in_latency] past [delta_start] and [a_start]: the command
    retained by one call is held in the next. *)
Theorem X10_retained_command_is_held_by_next_call
    (P : Params) (max_delta : R) (uninitialized : nat → R)
    (ipopt_solve : Problem → solve_result) (this : MPC)
    (state1 coeffs1 state2 coeffs2 : Dvector) (i : nat) :
  wf_params P → 6 ≤ length state1 → 6 ≤ length state2 →
  solver_contract ipopt_solve → MPC_invariant P this →
  i < num_states_in_latency P →
  ∃ pb1 out1 pb2,
    Solve_problem P max_delta uninitialized this state1 coeffs1 = Some pb1
    ∧ Solve P max_delta uninitialized ipopt_solve this state1 coeffs1
      = Some out1
    ∧ MPC_invariant P (mpc_after out1)
    ∧ Solve_problem P max_delta uninitialized (mpc_after out1) state2
        coeffs2 = Some pb2
    ∧ pb_vars_lowerbound pb2 !! (delta_start P + i)
      = Some (x (ipopt_solve pb1)
                !!! (delta_start P + num_states_in_latency P))
    ∧ pb_vars_upperbound pb2 !! (delta_start P + i)
      = Some (x (ipopt_solve pb1)
                !!! (delta_start P + num_states_in_latency P))
    ∧ pb_vars_lowerbound pb2 !! (a_start P + i)
      = Some (x (ipopt_solve pb1) !!! (a_start P + num_states_in_latency P))
    ∧ pb_vars_upperbound pb2 !! (a_start P + i)
      = Some (x (ipopt_solve pb1) !!! (a_start P + num_states_in_latency P))
    ∧ is_Some (Solve P max_delta uninitialized ipopt_solve (mpc_after out1)
                 state2 coeffs2).
Proof.
  intros Hwf Hs1 Hs2 Hsolver Hthis Hi. pose proof Hwf as (HN & _ & HL).
  destruct (Solve_runs P max_delta uninitialized ipopt_solve this state1
              coeffs1 Hwf Hs1 Hsolver Hthis)
    as (pb1 & out1 & Hpb1 & Hext1 & Hrun1 & Hlen1).
  destruct Hthis as [Hpx Hpy].
  destruct (Solve_extract_spec P this (ipopt_solve pb1) Hwf
              ltac:(lia) Hpx Hpy)
    as (out' & Hout' & Hsd & Ha & (Hl1 & Hl2 & _) & _).
  assert (out' = out1) as -> by congruence.
  assert (MPC_invariant P (mpc_after out1)) as Hinv by (by split).
  destruct (Solve_problem_spec P max_delta uninitialized (mpc_after out1)
              state2 coeffs2 Hwf Hs2)
    as (pb2 & Hpb2 & _ & _ & (_ & _ & Hb) & _).
  destruct (Solve_runs P max_delta uninitialized ipopt_solve
              (mpc_after out1) state2 coeffs2 Hwf Hs2 Hsolver Hinv)
    as (pb2' & out2 & _ & _ & Hrun2 & _).
  destruct (vars_bounds_at_latency P max_delta (mpc_after out1) i Hwf Hi)
    as [Ed Ea].
  destruct (Hb (delta_start P + i)) as [Hdlo Hdup]; [layout; lia |].
  destruct (Hb (a_start P + i)) as [Halo Haup]; [layout; lia |].
  rewrite Ed in Hdlo, Hdup. rewrite Ea in Halo, Haup.
  simpl in Hdlo, Hdup, Halo, Haup.
  rewrite Hsd in Hdlo, Hdup. rewrite Ha in Halo, Haup.
  exists pb1, out1, pb2.
  split; [done |]. split; [done |]. split; [done |]. split; [done |].
  split; [done |]. split; [done |]. split; [done |]. split; [done |].
  by exists out2.
Qed.

Lemma X10_retained_command_is_held_by_next_call_witness :
  ∃ pb1 out1 pb2,
    Solve_problem compiled 0.436332 stale (MPC_new compiled) scenario_state
      straight_road = Some pb1
    ∧ Solve compiled 0.436332 stale ramp_solver (MPC_new compiled)
        scenario_state straight_road = Some out1
    ∧ MPC_invariant compiled (mpc_after out1)
    ∧ Solve_problem compiled 0.436332 stale (mpc_after out1) distinct_state
        five_coeffs = Some pb2
    ∧ pb_vars_lowerbound pb2 !! (delta_start compiled + 1)
      = Some (x (ramp_solver pb1)
                !!! (delta_start compiled + num_states_in_latency compiled))
    ∧ pb_vars_upperbound pb2 !! (delta_start compiled + 1)
      = Some (x (ramp_solver pb1)
                !!! (delta_start compiled + num_states_in_latency compiled))
    ∧ pb_vars_lowerbound pb2 !! (a_start compiled + 1)
      = Some (x (ramp_solver pb1)
                !!! (a_start compiled + num_states_in_latency compiled))
    ∧ pb_vars_upperbound pb2 !! (a_start compiled + 1)
      = Some (x (ramp_solver pb1)
                !!! (a_start compiled + num_states_in_latency compiled))
    ∧ is_Some (Solve compiled 0.436332 stale ramp_solver (mpc_after out1)
                 distinct_state five_coeffs).
Proof.
  apply (X10_retained_command_is_held_by_next_call compiled 0.436332 stale
           ramp_solver (MPC_new compiled) scenario_state straight_road
           distinct_state five_coeffs 1).
  - apply wf_params_compiled.
  - simpl. lia.
  - simpl. lia.
  - apply ramp_solver_contract.
  - apply MPC_new_invariant.
  - unfold compiled. rewrite num_states_in_latency_72MPH. lia.
Defined.

(** The lower variable bounds lie within the variable bounds. *)
Lemma lower_bounds_within_bounds
    (P : Params) (max_delta : R) (uninitialized : nat → R) (this : MPC)
    (state coeffs : Dvector) (pb : Problem) :
  wf_params P → 6 ≤ length state → (0 <= max_delta)%R →
  Solve_problem P max_delta uninitialized this state coeffs = Some pb →
  within_bounds P pb (x (lower_solver pb)).
Proof.
  intros Hwf Hstate Hmd Hpb.
  destruct (Solve_problem_spec P max_delta uninitialized this state coeffs
              Hwf Hstate) as (pb' & Hpb' & _ & _ & (_ & _ & Hb) & _).
  assert (pb' = pb) as -> by congruence.
  intros j Hj. destruct (Hb j Hj) as [Hlo Hup].
  destruct (vars_bounds_at_regions P max_delta this j Hwf Hmd Hj)
    as (Hle & _).
  eexists _, _, _. split; [exact Hlo |]. split; [exact Hlo |].
  split; [exact Hup |]. lra.
Qed.

(** X11.  With two or more latency steps, the slot of index 1 of each
    actuation block is itself held: for every solution that lies within
    the variable bounds, the steering and acceleration elements of the
    vector that [Solve] returns are the commands the object retained
    before the call. *)
Theorem X11_returned_actuation_is_the_previous_command
    (P : Params) (max_delta : R) (uninitialized : nat → R)
    (ipopt_solve : Problem → solve_result) (this : MPC)
    (state coeffs : Dvector) :
  wf_params P → 6 ≤ length state → MPC_invariant P this →
  2 ≤ num_states_in_latency P →
  (∀ pb, Solve_problem P max_delta uninitialized this state coeffs = Some pb →
         within_bounds P pb (x (ipopt_solve pb))) →
  ∃ out,
    Solve P max_delta uninitialized ipopt_solve this state coeffs = Some out
    ∧ returned out !! 6 = Some (steering_delta_ this)
    ∧ returned out !! 7 = Some (a_ this).
Proof.
  intros Hwf Hstate [Hpx Hpy] HL2 Hwithin. pose proof Hwf as (HN & _ & HL).
  destruct (Solve_problem_spec P max_delta uninitialized this state coeffs
              Hwf Hstate) as (pb & Hpb & _ & _ & (_ & _ & Hb) & _).
  specialize (Hwithin pb Hpb).
  assert (n_vars P ≤ length (x (ipopt_solve pb))) as Hx.
  { destruct (Hwithin (n_vars P - 1)) as (v & _ & _ & Hv & _);
      [layout; lia |].
    apply lookup_lt_Some in Hv. lia. }
  destruct (Solve_extract_spec P this (ipopt_solve pb) Hwf Hx Hpx Hpy)
    as (out & Hout & _ & _ & _ & Hret & _).
  exists out. split; [unfold Solve; by rewrite Hpb |].
  destruct (vars_bounds_at_latency P max_delta this 1 Hwf ltac:(lia))
    as [Ed Ea].
  destruct (Hb (delta_start P + 1)) as [Hdlo Hdup]; [layout; lia |].
  destruct (Hb (a_start P + 1)) as [Halo Haup]; [layout; lia |].
  rewrite Ed in Hdlo, Hdup. rewrite Ea in Halo, Haup.
  simpl in Hdlo, Hdup, Halo, Haup.
  destruct (Hwithin (delta_start P + 1))
    as (v & lo & up & Hv & Hlo & Hup & Hle); [layout; lia |].
  destruct (Hwithin (a_start P + 1))
    as (v' & lo' & up' & Hv' & Hlo' & Hup' & Hle'); [layout; lia |].
  apply list_lookup_total_correct in Hv, Hv'.
  assert (lo = steering_delta_ this) by congruence.
  assert (up = steering_delta_ this) by congruence.
  assert (lo' = a_ this) by congruence.
  assert (up' = a_ this) by congruence.
  rewrite Hret, Hv, Hv'. simpl. split; f_equal; lra.
Qed.

Lemma X11_returned_actuation_is_the_previous_command_witness :
  ∃ out,
    Solve compiled 0.436332 stale lower_solver driving_MPC scenario_state
      straight_road = Some out
    ∧ returned out !! 6 = Some 0.1%R
    ∧ returned out !! 7 = Some 0.5%R.
Proof.
  apply (X11_returned_actuation_is_the_previous_command compiled 0.436332
           stale lower_solver driving_MPC scenario_state straight_road).
  - apply wf_params_compiled.
  - simpl. lia.
  - split; reflexivity.
  - unfold compiled. rewrite num_states_in_latency_72MPH. lia.
  - intros pb Hpb.
    apply (lower_bounds_within_bounds compiled 0.436332 stale driving_MPC
             scenario_state straight_road pb).
    + apply wf_params_compiled.
    + simpl. lia.
    + lra.
    + exact Hpb.
Defined.

(** ** What the outcome does not depend on *)

Lemma Solve_problem_options
    (P : Params) (max_delta : R) (uninitialized : nat → R) (this : MPC)
    (state coeffs : Dvector) (pb : Problem) :
  Solve_problem P max_delta uninitialized this state coeffs = Some pb →
  pb_options pb = options.
Proof.
  unfold Solve_problem. intros H. invert_binds H. by injection H as <-.
Qed.

Lemma Solve_problem_Some_state
    (P : Params) (max_delta : R) (uninitialized : nat → R) (this : MPC)
    (state coeffs : Dvector) (pb : Problem) :
  Solve_problem P max_delta uninitialized this state coeffs = Some pb →
  6 ≤ length state.
Proof.
  unfold Solve_problem. intros H. cbv zeta in H.
  do 6 (apply bind_Some in H as (? & ?%vget_Some_lt & H)). lia.
Qed.

(** A vector with the state at the block starts and zero elsewhere is
    determined by its length. *)
Lemma pinned_and_zero_determined
    (P : Params) (state v1 v2 : Dvector) (n : nat) :
  length v1 = n → length v2 = n →
  pinned_to_state P state v1 → pinned_to_state P state v2 →
  zero_elsewhere P n v1 → zero_elsewhere P n v2 →
  v1 = v2.
Proof.
  intros Hl1 Hl2 (? & ? & ? & ? & ? & ?) (? & ? & ? & ? & ? & ?) Hz1 Hz2.
  apply list_eq. intros j.
  destruct (decide (j < n)); [| by rewrite !lookup_ge_None_2 by lia].
  destruct (decide (j = x_start)) as [-> |]; [congruence |].
  destruct (decide (j = y_start P)) as [-> |]; [congruence |].
  destruct (decide (j = psi_start P)) as [-> |]; [congruence |].
  destruct (decide (j = v_start P)) as [-> |]; [congruence |].
  destruct (decide (j = cte_start P)) as [-> |]; [congruence |].
  destruct (decide (j = epsi_start P)) as [-> |]; [congruence |].
  by rewrite Hz1, Hz2.
Qed.

(** X12.  No entry of a freshly allocated vector reaches the solver: the
    problem that [Solve] builds is the same whatever the vectors held when
    they were allocated, every entry of the initial guess, of the two
    variable bounds and of the two constraint bounds being written before
    the solver is called. *)
Theorem X12_problem_independent_of_fresh_memory
    (P : Params) (max_delta : R) (fresh1 fresh2 : nat → R) (this : MPC)
    (state coeffs : Dvector) :
  wf_params P →
  Solve_problem P max_delta fresh1 this state coeffs
  = Solve_problem P max_delta fresh2 this state coeffs.
Proof.
  intros Hwf.
  destruct (decide (6 ≤ length state)) as [Hstate | Hshort].
  - destruct (Solve_problem_spec P max_delta fresh1 this state coeffs
                Hwf Hstate)
      as (pb1 & Hpb1 & Hf1 & (Lv1 & Pv1 & Zv1) & (Ll1 & Lu1 & Hb1)
          & (Lcl1 & Pcl1 & Zcl1) & (Lcu1 & Pcu1 & Zcu1)).
    destruct (Solve_problem_spec P max_delta fresh2 this state coeffs
                Hwf Hstate)
      as (pb2 & Hpb2 & Hf2 & (Lv2 & Pv2 & Zv2) & (Ll2 & Lu2 & Hb2)
          & (Lcl2 & Pcl2 & Zcl2) & (Lcu2 & Pcu2 & Zcu2)).
    pose proof (Solve_problem_options _ _ _ _ _ _ _ Hpb1) as Ho1.
    pose proof (Solve_problem_options _ _ _ _ _ _ _ Hpb2) as Ho2.
    rewrite Hpb1, Hpb2. f_equal.
    destruct pb1, pb2. simpl in *. f_equal.
    + congruence.
    + by eapply pinned_and_zero_determined.
    + apply list_eq. intros j.
      destruct (decide (j < n_vars P)) as [Hj |];
        [| by rewrite !lookup_ge_None_2 by lia].
      destruct (Hb1 j Hj) as [-> _]. by destruct (Hb2 j Hj) as [-> _].
    + apply list_eq. intros j.
      destruct (decide (j < n_vars P)) as [Hj |];
        [| by rewrite !lookup_ge_None_2 by lia].
      destruct (Hb1 j Hj) as [_ ->]. by destruct (Hb2 j Hj) as [_ ->].
    + by eapply pinned_and_zero_determined.
    + by eapply pinned_and_zero_determined.
    + congruence.
  - destruct (Solve_problem P max_delta fresh1 this state coeffs) eqn:E1;
      [apply Solve_problem_Some_state in E1; lia |].
    destruct (Solve_problem P max_delta fresh2 this state coeffs) eqn:E2;
      [apply Solve_problem_Some_state in E2; lia | done].
Qed.

Lemma X12_problem_independent_of_fresh_memory_witness :
  Solve_problem compiled 0.436332 stale driving_MPC scenario_state
    straight_road
  = Solve_problem compiled 0.436332 (λ _, 0%R) driving_MPC scenario_state
      straight_road.
Proof.
  apply (X12_problem_independent_of_fresh_memory compiled 0.436332 stale
           (λ _, 0%R) driving_MPC scenario_state straight_road).
  apply wf_params_compiled.
Defined.

(** The predicted path copied from a solution that reaches the end of the
    [y] block, into buffers of [N - 1] entries. *)
Lemma copy_pred_path_contents
    (P : Params) (solution : solve_result) (px py : list R) :
  1 ≤ N P →
  y_start P + N P ≤ length (x solution) →
  length px = N P - 1 → length py = N P - 1 →
  ∃ path, for_range 1 (N P) (copy_pred_path P solution) (px, py) = Some path
    ∧ path.1 = map (λ k, x solution !!! (x_start + (k + 1)))
                 (seq 0 (N P - 1))
    ∧ path.2 = map (λ k, x solution !!! (y_start P + (k + 1)))
                 (seq 0 (N P - 1)).
Proof.
  intros HN Hx Hpx Hpy.
  destruct (for_range_invariant
              (λ i t, length t.1 = N P - 1 ∧ length t.2 = N P - 1
                 ∧ ∀ k, k + 1 < i →
                     t.1 !! k = Some (x solution !!! (x_start + (k + 1)))
                     ∧ t.2 !! k
                       = Some (x solution !!! (y_start P + (k + 1))))
              (copy_pred_path P solution) 1 (N P) (px, py))
    as (path & Hrun & Hl1 & Hl2 & Hall).
  - lia.
  - split; [done |]. split; [done |]. intros; lia.
  - intros i [t1 t2] Hi (Ht1 & Ht2 & Hin). simpl in *.
    unfold copy_pred_path. simpl.
    run_read. run_write. run_read. run_write.
    eexists. split; [done |]. simpl. rewrite !length_insert.
    split; [done |]. split; [done |].
    intros k Hk. destruct (decide (k = i - 1)) as [-> |].
    + rewrite !list_lookup_insert_eq by lia.
      by replace (i - 1 + 1) with i by lia.
    + rewrite !list_lookup_insert_ne by lia. apply Hin. lia.
  - exists path. split; [done |].
    split; apply list_eq; intros k; rewrite list_lookup_fmap;
      (destruct (decide (k < N P - 1));
       [ rewrite lookup_seq_lt by done; simpl;
         destruct (Hall k ltac:(lia)) as [Ha Hb];
         first [exact Ha | exact Hb]
       | rewrite lookup_seq_ge by lia; simpl;
         by rewrite lookup_ge_None_2 by lia ]).
Qed.

(** X13.  What a call of [Solve] leaves in the object and returns is a
    function of the solver's answer alone: the two retained commands and
    every entry of the two path buffers are overwritten, so two objects
    with path buffers of [N - 1] entries give the same outcome, whatever
    they held. *)
Theorem X13_outcome_depends_on_solution_only
    (P : Params) (this1 this2 : MPC) (solution : solve_result) :
  wf_params P → MPC_invariant P this1 → MPC_invariant P this2 →
  Solve_extract P this1 solution = Solve_extract P this2 solution.
Proof.
  intros Hwf [Hx1 Hy1] [Hx2 Hy2]. pose proof Hwf as (HN & _ & HL).
  destruct (decide (a_start P + 1 < length (x solution)
                    ∧ a_start P + num_states_in_latency P
                      < length (x solution))) as [[H1 H2] | Hshort].
  - unfold Solve_extract. cbv zeta. run_read. run_read.
    destruct (copy_pred_path_contents P solution (pred_path_x_ this1)
                (pred_path_y_ this1)) as (p1 & -> & E11 & E12);
      [lia | layout; lia | done | done |].
    destruct (copy_pred_path_contents P solution (pred_path_x_ this2)
                (pred_path_y_ this2)) as (p2 & -> & E21 & E22);
      [lia | layout; lia | done | done |].
    run_bind. repeat run_read. by rewrite E11, E12, E21, E22.
  - destruct (Solve_extract P this1 solution) as [o1|] eqn:E1.
    { exfalso. apply Hshort.
      unfold Solve_extract in E1. invert_binds E1. invert_writes. lia. }
    destruct (Solve_extract P this2 solution) as [o2|] eqn:E2; [| done].
    exfalso. apply Hshort.
    unfold Solve_extract in E2. invert_binds E2. invert_writes. lia.
Qed.

Lemma X13_outcome_depends_on_solution_only_witness :
  Solve_extract compiled driving_MPC
    {| status := success; x := map stale (seq 0 78); obj_value := 0 |}
  = Solve_extract compiled (MPC_new compiled)
      {| status := success; x := map stale (seq 0 78); obj_value := 0 |}.
Proof.
  apply (X13_outcome_depends_on_solution_only compiled driving_MPC
           (MPC_new compiled)).
  - apply wf_params_compiled.
  - split; reflexivity.
  - apply MPC_new_invariant.
Defined.

(** ** The latency count and the profiles *)

(** X14.  For a positive time step, [num_states_in_latency] is zero
    exactly when the time step is longer than 0.2 s, twice the latency of
    100 ms: from there on [Solve] holds no actuation slot. *)
Theorem X14_no_latency_step_iff_long_time_step (P : Params) :
  (0 < dt P)%R →
  num_states_in_latency P = 0 ↔ (0.2 < dt P)%R.
Proof.
  intros Hdt.
  pose proof (num_states_in_latency_round P Hdt) as [Hlo Hhi].
  assert (0.1 / dt P * dt P = 0.1)%R as Hq by (field; lra).
  assert (0 < 0.1 / dt P)%R as Hqpos by (apply Rdiv_lt_0_compat; lra).
  split.
  - intros HL. rewrite HL in Hhi. simpl in Hhi. nra.
  - intros Hlong.
    destruct (num_states_in_latency P) as [|n]; [done |].
    exfalso. rewrite S_INR in Hlo. pose proof (pos_INR n). nra.
Qed.

Lemma X14_no_latency_step_iff_long_time_step_witness :
  num_states_in_latency MPC_PARAMS_88MPH = 0
  ↔ (0.2 < dt MPC_PARAMS_88MPH)%R.
Proof.
  apply (X14_no_latency_step_iff_long_time_step MPC_PARAMS_88MPH).
  simpl. lra.
Defined.

(** X15.  Each of the three profiles the source can be compiled with is
    consistent: the horizon has at least three steps, the time step is
    positive, there are one or two latency steps and they are fewer than
    the [N - 1] actuations, and the five tracking and magnitude weights are
    positive. *)
Theorem X15_every_profile_is_consistent (P : Params) :
  is_profile P →
  wf_params P
  ∧ 1 ≤ num_states_in_latency P ≤ 2
  ∧ weights_pos P.
Proof.
  intros HP. split; [by apply wf_params_profile |].
  split; [| by apply weights_pos_profile].
  destruct HP as [-> | [-> | ->]].
  - rewrite num_states_in_latency_72MPH. lia.
  - rewrite num_states_in_latency_88MPH. lia.
  - rewrite num_states_in_latency_default. lia.
Qed.

Lemma X15_every_profile_is_consistent_witness :
  wf_params compiled
  ∧ 1 ≤ num_states_in_latency compiled ≤ 2
  ∧ weights_pos compiled.
Proof.
  apply (X15_every_profile_is_consistent compiled). left. reflexivity.
Defined.
